(** * npm-check-updates: the version manager ([lib/versionmanager.js])

    A shallow embedding of the pure functions of the version manager and
    the verification of its specification.

    Strings.  A JavaScript string is modelled as the list of its code
    units, [list ascii]; the embedding covers the strings whose code units
    lie in 0..255 (the character with code [n] is the code unit of value
    [n]).  Character classes are written on the numeric code.

    Numbers.  [parseInt] yields NaN or an integer-valued Number; it is
    modelled as [option Z], [None] being NaN, the integer being rounded to
    the nearest double as ECMAScript's Number does.

    The [semver] package is an npm dependency, not part of this
    repository: the three functions the version manager calls are taken
    as parameters of the development. *)

From Stdlib Require Import List Ascii String ZArith NArith Bool Lia.
From stdpp Require Import base decidable option list gmap strings.
Import ListNotations.

Local Open Scope Z_scope.

(** ** Strings and characters *)

Abbreviation jsstring := (list ascii).

(** A string literal as a list of code units. *)
Definition js (s : string) : jsstring := list_ascii_of_string s.

Definition code (c : ascii) : N := N_of_ascii c.

Definition isDigitChar (c : ascii) : bool :=
  ((48 <=? code c) && (code c <=? 57))%N.

(** ECMAScript's StrWhiteSpaceChar (white space and line terminators), which
    is also the class [\s] of regular expressions: TAB, LF, VT, FF, CR,
    SPACE and NBSP among the code units 0..255. *)
Definition isWhiteSpaceChar (c : ascii) : bool :=
  ((9 <=? code c) && (code c <=? 13) || (code c =? 32) || (code c =? 160))%N.

Definition dot : ascii := ascii_of_N 46.
Definition space : ascii := ascii_of_N 32.

(** [isNaN(ch)] for a one-character string [ch]: [Number(ch)] is a digit's
    value, 0 for a white-space character (the trimmed string is empty), and
    NaN for every other character. *)
Definition isNaNChar (c : ascii) : bool :=
  negb (isDigitChar c || isWhiteSpaceChar c).

(** [String.prototype.split] with a one-character separator. *)
Fixpoint split (sep : ascii) (s : jsstring) : list jsstring :=
  match s with
  | [] => [[]]
  | c :: s' =>
      if bool_decide (c = sep) then [] :: split sep s'
      else match split sep s' with
           | h :: t => (c :: h) :: t
           | [] => [[c]]
           end
  end.

(** [Array.prototype.join] with a one-character separator. *)
Fixpoint join (sep : ascii) (l : list jsstring) : jsstring :=
  match l with
  | [] => []
  | [x] => x
  | x :: l' => x ++ sep :: join sep l'
  end.

(** ** Numbers: [parseInt(s, 10)] *)

(** The Number value of a non-negative mathematical integer: itself below
    2^53, otherwise rounded to 53 significant bits, ties to even; 2^1024
    stands for Infinity (it is above every finite double). *)
Definition roundQuotient (q r half : Z) : Z :=
  if r <? half then q
  else if half <? r then q + 1
  else if Z.even q then q else q + 1.

Definition roundMagnitude (m : Z) : Z :=
  if m <? 2 ^ 53 then m
  else
    let sh := Z.log2 m - 52 in
    Z.min (roundQuotient (m / 2 ^ sh) (m mod 2 ^ sh) (2 ^ (sh - 1)) * 2 ^ sh)
          (2 ^ 1024).

Definition toNumber (z : Z) : Z := Z.sgn z * roundMagnitude (Z.abs z).

Fixpoint skipWhiteSpace (s : jsstring) : jsstring :=
  match s with
  | c :: s' => if isWhiteSpaceChar c then skipWhiteSpace s' else s
  | [] => []
  end.

Definition digitValue (c : ascii) : Z := Z.of_N (code c) - 48.

(** The value of the longest prefix of decimal digits. *)
Fixpoint digitsValue (acc : Z) (s : jsstring) : Z :=
  match s with
  | c :: s' => if isDigitChar c then digitsValue (10 * acc + digitValue c) s' else acc
  | [] => acc
  end.

(** The mathematical integer [parseInt] reads (ECMAScript's mathInt), [None]
    when no digit follows the optional white space and sign. *)
Definition parseIntMath (s : jsstring) : option Z :=
  let s1 := skipWhiteSpace s in
  let '(sign, s2) :=
    match s1 with
    | c :: r => if bool_decide (code c = 45%N) then (-1, r)
                else if bool_decide (code c = 43%N) then (1, r)
                else (1, s1)
    | [] => (1, s1)
    end in
  match s2 with
  | c :: _ => if isDigitChar c then Some (sign * digitsValue 0 s2) else None
  | [] => None
  end.

Definition parseInt (s : jsstring) : option Z := toNumber <$> parseIntMath s.

(** [a > b] on Numbers: false as soon as one side is NaN. *)
Definition numGt (a b : option Z) : bool :=
  match a, b with
  | Some x, Some y => y <? x
  | _, _ => false
  end.

(** ** The version manager *)

Definition isWildDigit (d : jsstring) : bool :=
  bool_decide (d = js "x") || bool_decide (d = js "*").

Definition versionDigitComparison (d1 d2 : jsstring) : Z :=
  if numGt (parseInt d1) (parseInt d2) then 1
  else if bool_decide (d1 = d2) || isWildDigit d1 || isWildDigit d2 then 0
  else -1.

Definition isConstraintChar (c : ascii) : bool :=
  (isNaNChar c || bool_decide (c = space)) && negb (isWildDigit [c]).

Fixpoint getVersionConstraints (declaration : jsstring) : jsstring :=
  match declaration with
  | [] => []
  | c :: rest =>
      if isConstraintChar c then c :: getVersionConstraints rest else []
  end.

(** The loop of [upgradeDependencyDeclaration] over the components of the
    declaration, with its [versionBumped] flag; the result is
    [proposedComponents]. *)
Fixpoint proposeComponents (versionBumped : bool)
    (currentComponents latestComponents : list jsstring) : list jsstring :=
  match currentComponents, latestComponents with
  | [], _ => []
  | _ :: _, [] => []
  | currentDigit :: cs, newDigit :: ls =>
      if isWildDigit currentDigit then
        currentDigit :: proposeComponents versionBumped cs ls
      else
        let comparison := versionDigitComparison currentDigit newDigit in
        if comparison <? 0 then newDigit :: proposeComponents true cs ls
        else if (0 <? comparison) && negb versionBumped then
          newDigit :: proposeComponents versionBumped cs ls
        else if versionBumped then
          newDigit :: proposeComponents versionBumped cs ls
        else currentDigit :: proposeComponents versionBumped cs ls
  end.

(** [latestVersion] is [None] for [undefined]; [undefined] and the empty
    string are the falsy values. *)
Definition upgradeDependencyDeclaration (declaration : jsstring)
    (latestVersion : option jsstring) : jsstring :=
  match latestVersion with
  | None | Some [] => declaration
  | Some latest =>
      let newDeclaration := getVersionConstraints declaration in
      let declaration := drop (length newDeclaration) declaration in
      let currentComponents := split dot declaration in
      match currentComponents with
      | [] :: _ => newDeclaration
      | _ =>
          let latestComponents := split dot latest in
          newDeclaration
            ++ join dot (proposeComponents false currentComponents latestComponents)
      end
  end.


(** *** The semver package, as an interface

    [validRange r] is the truthiness of [semver.validRange(r)];
    [satisfies v r] and [ltr v r] are the results of [semver.satisfies] and
    [semver.ltr] on a version that may be [undefined] ([None]).  Calls that
    raise are outside the interface. *)
Class Semver : Type := {
  validRange : jsstring -> bool;
  satisfies : option jsstring -> jsstring -> bool;
  ltr : option jsstring -> jsstring -> bool
}.

Section VersionManager.
Context `{Semver}.

Definition isUpgradeable (current : jsstring) (latest : option jsstring) : bool :=
  if negb (validRange current) then false
  else
    let unconstrainedCurrent :=
      drop (length (getVersionConstraints current)) current in
    match unconstrainedCurrent with
    | [] => false
    | _ :: _ =>
        let isLatest := satisfies latest unconstrainedCurrent in
        let isBeyond := ltr latest unconstrainedCurrent in
        negb isLatest && negb isBeyond
    end.

(** lodash's chain: [mapValues] pairs every current declaration with
    [latestVersions[packageName]] (possibly [undefined]), [pick] keeps the
    pairs [isUpgradeable] accepts, [mapValues] upgrades them. *)
Definition upgradeDependencies
    (currentDependencies latestVersions : gmap jsstring jsstring)
    : gmap jsstring jsstring :=
  let paired : gmap jsstring (jsstring * option jsstring) :=
    map_imap (fun packageName current =>
                Some (current, latestVersions !! packageName))
             currentDependencies in
  let picked :=
    filter (fun kv => isUpgradeable kv.2.1 kv.2.2 = true) paired in
  (fun p => upgradeDependencyDeclaration p.1 p.2) <$> picked.

End VersionManager.

(** A non-empty string of decimal digits. *)
Definition allDigits (s : jsstring) : bool :=
  negb (bool_decide (s = [])) && forallb isDigitChar s.

(** An exact version [X.Y.Z] as a triple. *)
Definition exactVersion (s : jsstring) : option (Z * Z * Z) :=
  match split dot s with
  | [a; b; c] =>
      if allDigits a && allDigits b && allDigits c
      then Some (digitsValue 0 a, digitsValue 0 b, digitsValue 0 c)
      else None
  | _ => None
  end.

Definition tripleLt (v w : Z * Z * Z) : bool :=
  let '(a, b, c) := v in
  let '(a', b', c') := w in
  (a <? a') || ((a =? a') && ((b <? b') || ((b =? b') && (c <? c')))).

(** An instance of the interface on exact versions [X.Y.Z], used to
    evaluate the definitions; it is not the semver package.  A range is
    valid when it is such a version after an optional constraint prefix
    (the package accepts many more); a version satisfies the range it is
    equal to; it is below a range it precedes in the order on triples.  On
    anything else both predicates answer [false]; on an absent version the
    package's [ltr] raises, which this interface leaves out and
    [Raising.Semver] has. *)
Definition exactSemver : Semver := {|
  validRange r :=
    bool_decide (is_Some (exactVersion (drop (length (getVersionConstraints r)) r)));
  satisfies v r :=
    match v ≫= exactVersion, exactVersion r with
    | Some a, Some b => bool_decide (a = b)
    | _, _ => false
    end;
  ltr v r :=
    match v ≫= exactVersion, exactVersion r with
    | Some a, Some b => tripleLt a b
    | _, _ => false
    end
|}.

(** ** The manifest patcher *)

Definition dquote : ascii := ascii_of_N 34.
Definition backslash : ascii := ascii_of_N 92.
Definition dollar : ascii := ascii_of_N 36.
Definition star : ascii := ascii_of_N 42.
Definition colon : ascii := ascii_of_N 58.

(** The characters of the class [[-\/\\^$*+?.()|[\]{}]]. *)
Definition isEscapedChar (c : ascii) : bool :=
  bool_decide (c ∈ js "-/\^$*+?.()|[]{}").

(** [s.replace(/[-\/\\^$*+?.()|[\]{}]/g, '\\$&')] *)
Definition escapeRegexp (s : jsstring) : jsstring :=
  flat_map (fun c => if isEscapedChar c then [backslash; c] else [c]) s.

(** *** Regular expressions

    The patterns [updatePackageData] builds are interpreted in the fragment
    of literal characters, [.], [\s], escaped punctuation and the greedy
    [*]. *)
Inductive charClass : Type :=
  | CLit (c : ascii)
  | CAny
  | CSpace.

Inductive token : Type :=
  | TClass (k : charClass)
  | TStar.

Inductive item : Type :=
  | One (k : charClass)
  | Star (k : charClass).

(** The syntax characters of a pattern. *)
Definition isSyntaxChar (c : ascii) : bool :=
  bool_decide (c ∈ js "\^$.*+?()[]{}|").

Definition isLineTerminator (c : ascii) : bool :=
  ((code c =? 10) || (code c =? 13))%N.

Definition classMatches (k : charClass) (c : ascii) : bool :=
  match k with
  | CLit x => bool_decide (c = x)
  | CAny => negb (isLineTerminator c)
  | CSpace => isWhiteSpaceChar c
  end.

(** The source of a pattern as tokens; [None] when it uses a construct
    outside the fragment (or is not a pattern at all). *)
Fixpoint tokens (p : jsstring) : option (list token) :=
  match p with
  | [] => Some []
  | c :: rest =>
      if bool_decide (c = backslash) then
        match rest with
        | e :: rest' =>
            if bool_decide (e = "s"%char) then (TClass CSpace ::.) <$> tokens rest'
            else if isEscapedChar e then (TClass (CLit e) ::.) <$> tokens rest'
            else None
        | [] => None
        end
      else if bool_decide (c = dot) then (TClass CAny ::.) <$> tokens rest
      else if bool_decide (c = star) then (TStar ::.) <$> tokens rest
      else if isSyntaxChar c then None
      else (TClass (CLit c) ::.) <$> tokens rest
  end.

(** Atoms with their quantifier; a [*] with nothing to repeat is refused. *)
Fixpoint items (ts : list token) : option (list item) :=
  match ts with
  | [] => Some []
  | TClass k :: ts' =>
      match ts' with
      | TStar :: ts'' => (Star k ::.) <$> items ts''
      | _ => (One k ::.) <$> items ts'
      end
  | TStar :: _ => None
  end.

Definition compile (p : jsstring) : option (list item) := tokens p ≫= items.

(** The length of the match of the pattern at the start of [s], as the
    backtracking matcher finds it: a starred atom first takes as many
    characters as it can and gives them back one at a time. *)
Fixpoint matchItems (its : list item) (s : jsstring) : option nat :=
  match its with
  | [] => Some 0%nat
  | One k :: its' =>
      match s with
      | c :: s' => if classMatches k c then S <$> matchItems its' s' else None
      | [] => None
      end
  | Star k :: its' =>
      (fix repeat (s : jsstring) : option nat :=
         match s with
         | c :: s' =>
             if classMatches k c then
               match repeat s' with
               | Some n => Some (S n)
               | None => matchItems its' s
               end
             else matchItems its' s
         | [] => matchItems its' s
         end) s
  end.

(** The expansion of a replacement string: [$$], [$&], [$`] and [$'];
    the patterns of the fragment have no groups, so [$1] .. [$99] stand for
    themselves. *)
Fixpoint expand (template matched before after : jsstring) : jsstring :=
  match template with
  | [] => []
  | c :: t =>
      if bool_decide (c = dollar) then
        match t with
        | d :: t' =>
            if bool_decide (d = dollar) then dollar :: expand t' matched before after
            else if bool_decide (d = "&"%char) then matched ++ expand t' matched before after
            else if bool_decide (d = "`"%char) then before ++ expand t' matched before after
            else if bool_decide (d = "'"%char) then after ++ expand t' matched before after
            else c :: expand t matched before after
        | [] => [c]
        end
      else c :: expand t matched before after
  end.

(** [String.prototype.replace] with a global pattern, from position [pos]
    of [whole]; [skip] characters of the current match are still to be
    passed over.  After an empty match the next character is copied. *)
Fixpoint replaceFrom (its : list item) (template whole : jsstring)
    (pos skip : nat) (s : jsstring) {struct s} : jsstring :=
  match skip with
  | S k =>
      match s with
      | _ :: s' => replaceFrom its template whole (S pos) k s'
      | [] => []
      end
  | O =>
      match matchItems its s with
      | Some n =>
          expand template (take n s) (take pos whole) (drop (pos + n) whole)
            ++ match s with
               | c :: s' =>
                   match n with
                   | O => c :: replaceFrom its template whole (S pos) 0 s'
                   | S k => replaceFrom its template whole (S pos) k s'
                   end
               | [] => []
               end
      | None =>
          match s with
          | c :: s' => c :: replaceFrom its template whole (S pos) 0 s'
          | [] => []
          end
      end
  end.

Definition replaceGlobal (its : list item) (template data : jsstring) : jsstring :=
  replaceFrom its template data 0 0 data.

(** The string an entry of [oldDependencies] is concatenated as; a missing
    entry is [undefined]. *)
Definition toStringValue (v : option jsstring) : jsstring :=
  match v with
  | Some s => s
  | None => js "undefined"
  end.

Definition patternSource (dependency oldDeclaration : jsstring) : jsstring :=
  [dquote] ++ dependency ++ [dquote] ++ js "\s*:\s*" ++ [dquote]
    ++ escapeRegexp (oldDeclaration ++ [dquote]).

Definition replacementFor (dependency newDeclaration : jsstring) : jsstring :=
  [dquote] ++ dependency ++ [dquote] ++ js ": " ++ [dquote] ++ newDeclaration
    ++ [dquote].

(** One iteration of the loop of [updatePackageData]. *)
Definition updateEntry (oldDependencies : gmap jsstring jsstring)
    (data : jsstring) (entry : jsstring * jsstring) : option jsstring :=
  let '(dependency, newDeclaration) := entry in
  regExp ← compile (patternSource dependency
                      (toStringValue (oldDependencies !! dependency)));
  Some (replaceGlobal regExp (replacementFor dependency newDeclaration) data).

(** [newDependencies] is the list of the entries of the object in the order
    [for ... in] enumerates them.  [None]: a pattern is outside the
    fragment. *)
Fixpoint updatePackageData (data : jsstring)
    (oldDependencies : gmap jsstring jsstring)
    (newDependencies : list (jsstring * jsstring)) : option jsstring :=
  match newDependencies with
  | [] => Some data
  | entry :: rest =>
      data' ← updateEntry oldDependencies data entry;
      updatePackageData data' oldDependencies rest
  end.

(** * Vocabulary of the statements *)

(** The body of a declaration: what follows its constraint prefix. *)
Definition body (d : jsstring) : jsstring :=
  drop (length (getVersionConstraints d)) d.

(** A target is well formed for the upgrader when it is absent or has no
    constraint prefix: its first character, if any, is a digit or a
    wildcard marker (or white space other than the space character). *)
Definition wellFormedTarget (latest : option jsstring) : Prop :=
  match latest with
  | None => True
  | Some t => getVersionConstraints t = []
  end.

(** The Target Version of the data model: dotted integer literals. *)
Definition isTargetVersion (t : jsstring) : bool :=
  forallb allDigits (split dot t).

(** The components of the body of a declaration, and those of the body of
    its upgrade: the result without the prefix the upgrader put in front. *)
Definition components (d : jsstring) : list jsstring := split dot (body d).

Definition resultComponents (d : jsstring) (latest : option jsstring)
    : list jsstring :=
  split dot (drop (length (getVersionConstraints d))
                  (upgradeDependencyDeclaration d latest)).

(** [c] is numerically at most [n]: both read as integers, in that order. *)
Definition numLeb (c n : jsstring) : bool :=
  match parseIntMath c, parseIntMath n with
  | Some a, Some b => a <=? b
  | _, _ => false
  end.

Definition tab : ascii := ascii_of_N 9.

(** The extractor as the specification words it: the longest prefix of
    characters that are neither digits nor wildcard markers. *)
Fixpoint specConstraintPrefix (d : jsstring) : jsstring :=
  match d with
  | [] => []
  | c :: rest =>
      if negb (isDigitChar c) && negb (isWildDigit [c])
      then c :: specConstraintPrefix rest
      else []
  end.

(** The constraint characters: neither digits nor wildcard markers, and,
    of the white-space characters, the space only. *)
Definition ConstraintChar (c : ascii) : Prop :=
  isDigitChar c = false /\ c <> "x"%char /\ c <> "*"%char
  /\ (isWhiteSpaceChar c = true -> c = space).

Definition lits (l : jsstring) : list item := map (fun c => One (CLit c)) l.
Definition litTokens (l : jsstring) : list token := map (fun c => TClass (CLit c)) l.

(** A name without pattern syntax: none of [\ ^ $ . * + ? ( ) [ ] { } |]. *)
Definition plainName (dependency : jsstring) : Prop :=
  Forall (fun c => isSyntaxChar c = false) dependency.

Definition startsWithStar (ts : list token) : Prop :=
  match ts with
  | TStar :: _ => True
  | _ => False
  end.

(** The pattern of an entry, compiled. *)
Definition entryPattern (dependency oldDeclaration : jsstring) : list item :=
  lits ([dquote] ++ dependency ++ [dquote])
    ++ Star CSpace :: One (CLit colon) :: Star CSpace
    :: lits (dquote :: oldDeclaration ++ [dquote]).

(** What is left of [s] after the prefix [l], if [s] starts with it. *)
Fixpoint stripPrefix (l s : jsstring) : option jsstring :=
  match l, s with
  | [], _ => Some s
  | x :: l', y :: s' => if bool_decide (y = x) then stripPrefix l' s' else None
  | _ :: _, [] => None
  end.

(** The length of the run of white space [s] starts with. *)
Fixpoint spaceRun (s : jsstring) : nat :=
  match s with
  | c :: s' => if isWhiteSpaceChar c then S (spaceRun s') else 0
  | [] => 0
  end.

(** An occurrence of an entry in the manifest: the quoted name, a colon
    with any white space around it, the quoted old declaration. *)
Definition Occurrence (dependency oldDeclaration m : jsstring) : Prop :=
  exists ws1 ws2,
    Forall (fun c => isWhiteSpaceChar c = true) ws1
    /\ Forall (fun c => isWhiteSpaceChar c = true) ws2
    /\ m = ([dquote] ++ dependency ++ [dquote])
             ++ ws1 ++ [colon] ++ ws2
             ++ (dquote :: oldDeclaration ++ [dquote]).

(** The text [s] with every occurrence replaced by [r], from left to
    right: either nothing in [s] is an occurrence, or [s] is cut at its
    leftmost occurrence and the rest is rewritten in turn. *)
Inductive Rewritten (P : jsstring -> Prop) (r : jsstring)
    : jsstring -> jsstring -> Prop :=
  | Rewritten_none s :
      (forall pre m post, s = pre ++ m ++ post -> ~ P m) ->
      Rewritten P r s s
  | Rewritten_first pre m post out :
      P m ->
      (forall pre' m' post',
          pre ++ m ++ post = pre' ++ m' ++ post' -> P m' ->
          (length pre <= length pre')%nat) ->
      Rewritten P r post out ->
      Rewritten P r (pre ++ m ++ post) (pre ++ r ++ out).

Definition quoted (s : jsstring) : jsstring := [dquote] ++ s ++ [dquote].

(** The manifest after the entries have been patched one after the other. *)
Inductive Patched (oldDependencies : gmap jsstring jsstring)
    : list (jsstring * jsstring) -> jsstring -> jsstring -> Prop :=
  | Patched_nil data : Patched oldDependencies [] data data
  | Patched_cons dependency newDeclaration rest data data' out :
      Rewritten
        (Occurrence dependency (toStringValue (oldDependencies !! dependency)))
        (replacementFor dependency newDeclaration) data data' ->
      Patched oldDependencies rest data' out ->
      Patched oldDependencies ((dependency, newDeclaration) :: rest) data out.

(** * The rest of the module *)

(** ** The semver calls when they raise

    [isUpgradeable] and [upgradeDependencies] again, over an interface in
    which [semver.satisfies] and [semver.ltr] may raise: [None] is a raised
    exception, which nothing in the module catches.  [pick] calls
    [isUpgradeable] on every pair, so one call that raises leaves no
    result. *)
Module Raising.

Class Semver : Type := {
  validRange : jsstring -> bool;
  satisfies : option jsstring -> jsstring -> option bool;
  ltr : option jsstring -> jsstring -> option bool
}.

Section VersionManager.
Context `{Semver}.

Definition isUpgradeable (current : jsstring) (latest : option jsstring)
    : option bool :=
  if negb (validRange current) then Some false
  else
    let unconstrainedCurrent :=
      drop (length (getVersionConstraints current)) current in
    match unconstrainedCurrent with
    | [] => Some false
    | _ :: _ =>
        isLatest ← satisfies latest unconstrainedCurrent;
        isBeyond ← ltr latest unconstrainedCurrent;
        Some (negb isLatest && negb isBeyond)
    end.

Definition upgradeDependencies
    (currentDependencies latestVersions : gmap jsstring jsstring)
    : option (gmap jsstring jsstring) :=
  let paired : gmap jsstring (jsstring * option jsstring) :=
    map_imap (fun packageName current =>
                Some (current, latestVersions !! packageName))
             currentDependencies in
  if decide (map_Forall (fun _ p => is_Some (isUpgradeable p.1 p.2)) paired)
  then
    let picked :=
      filter (fun kv => isUpgradeable kv.2.1 kv.2.2 = Some true) paired in
    Some ((fun p => upgradeDependencyDeclaration p.1 p.2) <$> picked)
  else None.

End VersionManager.

End Raising.

(** An interface whose calls all return. *)
Definition returning (S : Semver) : Raising.Semver := {|
  Raising.validRange := validRange;
  Raising.satisfies v r := Some (satisfies v r);
  Raising.ltr v r := Some (ltr v r)
|}.

(** The instance on exact versions, with what the package does on an
    absent version: [satisfies] answers false and [ltr] raises (as it does
    on what is not a version). *)
Definition exactRaisingSemver : Raising.Semver := {|
  Raising.validRange := @validRange exactSemver;
  Raising.satisfies v r := Some (@satisfies exactSemver v r);
  Raising.ltr v r :=
    match v ≫= exactVersion with
    | Some _ => Some (@ltr exactSemver v r)
    | None => None
    end
|}.

(** ** Helper functions *)

Definition protoKey : jsstring := js "__proto__".
Definition hasOwnPropertyKey : jsstring := js "hasOwnProperty".

(** The loop [for (var property in o) if (o.hasOwnProperty(property))
    newObject[property] = o[property]].  The assignment to the property
    [__proto__] sets no property when the value is a string.  The objects
    are those that inherit [hasOwnProperty]: on an object with an own
    property of that name the call raises (a string is not a function), and
    such an object is outside this definition ([ordinaryObject]). *)
Definition copyProperties (o newObject : gmap jsstring jsstring)
    : gmap jsstring jsstring :=
  map_fold (fun property value acc =>
              if bool_decide (property = protoKey) then acc
              else <[property := value]> acc)
           newObject o.

(** [None] is [undefined], over which [for ... in] does not iterate. *)
Definition mergeObjects (o1 o2 : option (gmap jsstring jsstring))
    : gmap jsstring jsstring :=
  let newObject := ∅ in
  let newObject :=
    match o1 with
    | Some o => copyProperties o newObject
    | None => newObject
    end in
  match o2 with
  | Some o => copyProperties o newObject
  | None => newObject
  end.

Definition arrayToObject (a : list (gmap jsstring jsstring))
    : gmap jsstring jsstring :=
  fold_left (fun o element => copyProperties element o) a ∅.

(** [String.prototype.indexOf]: the first position at which [searchString]
    occurs, [None] for -1. *)
Fixpoint indexOfFrom (searchString s : jsstring) (position : nat) : option nat :=
  match stripPrefix searchString s with
  | Some _ => Some position
  | None =>
      match s with
      | [] => None
      | _ :: s' => indexOfFrom searchString s' (S position)
      end
  end.

Definition indexOf (s searchString : jsstring) : option nat :=
  indexOfFrom searchString s 0.

Definition startsWith (string prefix : jsstring) : bool :=
  bool_decide (indexOf string prefix = Some 0%nat).

(** ** Errors

    An error handed over by a collaborator is passed to the callback as it
    is; the module's own errors are [new Error(message)]. *)
Inductive jsError : Type :=
  | Passed (error : jsstring)
  | NewError (message : jsstring).

(** ** The current dependencies *)

(** What [readJson] hands to its callback: an error, or the manifest
    ([None] when it is falsy).  A manifest has its two collections, each
    possibly [undefined]. *)
Record packageJson : Type := {
  dependencies : option (gmap jsstring jsstring);
  devDependencies : option (gmap jsstring jsstring)
}.

Inductive readResult : Type :=
  | ReadFailed (error : jsstring)
  | ReadJson (json : option packageJson).

(** [options.filter]: falsy and not a string ([undefined], [null], ...), a
    string, an array of names, or a truthy value of another type. *)
Inductive filterValue : Type :=
  | FilterAbsent
  | FilterString (s : jsstring)
  | FilterArray (packages : list jsstring)
  | FilterOther.

(** [prod] and [dev] are the truthiness of [options.prod] and
    [options.dev]. *)
Record options : Type := {
  prod : bool;
  dev : bool;
  filterOption : filterValue
}.

Definition slash : ascii := ascii_of_N 47.
Definition comma : ascii := ascii_of_N 44.

(** The characters of the class [[\s,]]. *)
Definition isFilterSeparator (c : ascii) : bool :=
  isWhiteSpaceChar c || bool_decide (c = comma).

(** [s.split(/[\s,]+/)]: the pieces between the runs of separators; a run
    at an end of the string has the empty piece on its outer side.
    [inRun]: the previous character was a separator. *)
Fixpoint splitRuns (inRun : bool) (s : jsstring) : list jsstring :=
  match s with
  | [] => [[]]
  | c :: s' =>
      if isFilterSeparator c then
        if inRun then splitRuns true s' else [] :: splitRuns true s'
      else
        match splitRuns false s' with
        | h :: t => (c :: h) :: t
        | [] => [[c]]
        end
  end.

Definition splitFilter (s : jsstring) : list jsstring := splitRuns false s.

(** [regexp.test(s)] for a pattern without the global flag: a match
    starting at some position of [s]. *)
Fixpoint regexTest (its : list item) (s : jsstring) : bool :=
  match matchItems its s with
  | Some _ => true
  | None =>
      match s with
      | [] => false
      | _ :: s' => regexTest its s'
      end
  end.

(** [s.slice(1, s.length - 1)] *)
Definition sliceInner (s : jsstring) : jsstring :=
  take (length s - 2) (drop 1 s).

(** What [options.filter] turns into: no filtering, the predicate
    [filterPackages] on names, or a value that is refused. *)
Inductive packagesFilter : Type :=
  | NoFilter
  | KeepIf (filterPackages : jsstring -> bool)
  | BadFilter.

(** [None]: the filter is a pattern outside the fragment of regular
    expressions this development interprets. *)
Definition readFilter (filter : filterValue) : option packagesFilter :=
  match filter with
  | FilterAbsent => Some NoFilter
  | FilterString s =>
      match s with
      | [] => Some NoFilter
      | first :: _ =>
          if bool_decide (first = slash)
             && bool_decide (last s = Some slash) then
            regexp ← compile (sliceInner s);
            Some (KeepIf (regexTest regexp))
          else
            let packages := splitFilter s in
            Some (KeepIf (fun name => bool_decide (name ∈ packages)))
      end
  | FilterArray packages =>
      Some (KeepIf (fun name => bool_decide (name ∈ packages)))
  | FilterOther => Some BadFilter
  end.

(** The callback [getCurrentDependencies] gives to [readJson], as a
    function of what [readJson] hands to it; the result is what is passed
    to [callback].  [cint.filterObject] with [cint.aritize(f, 1)] keeps the
    entries whose name [f] accepts, as the comments of the source have
    it. *)
Definition getCurrentDependencies (read : readResult) (opts : options)
    : option (jsError + gmap jsstring jsstring) :=
  match read with
  | ReadFailed error => Some (inl (Passed error))
  | ReadJson None =>
      Some (inl (NewError (js "package.json does not contain valid json")))
  | ReadJson (Some json) =>
      let allDependencies : gmap jsstring jsstring := ∅ in
      let allDependencies :=
        if prod opts || negb (dev opts)
        then mergeObjects (Some allDependencies) (dependencies json)
        else allDependencies in
      let allDependencies :=
        if dev opts || (negb (prod opts) && negb (dev opts))
        then mergeObjects (Some allDependencies) (devDependencies json)
        else allDependencies in
      f ← readFilter (filterOption opts);
      match f with
      | NoFilter => Some (inr allDependencies)
      | KeepIf filterPackages =>
          Some (inr (filter (fun entry => filterPackages entry.1 = true)
                            allDependencies))
      | BadFilter =>
          Some (inl (NewError (js "Invalid packages filter. Must be a RegExp, array, or comma-or-space-delimited list.")))
      end
  end.

(** The same callback with the engine of regular expressions as a
    parameter: [regexpOf source] is [None] when [new RegExp(source)]
    raises, and the [test] method of the pattern otherwise. *)
Section RegExpEngine.

Variable regexpOf : jsstring -> option (jsstring -> bool).

Definition readFilterWith (filter : filterValue) : option packagesFilter :=
  match filter with
  | FilterAbsent => Some NoFilter
  | FilterString s =>
      match s with
      | [] => Some NoFilter
      | first :: _ =>
          if bool_decide (first = slash)
             && bool_decide (last s = Some slash) then
            test ← regexpOf (sliceInner s);
            Some (KeepIf test)
          else
            let packages := splitFilter s in
            Some (KeepIf (fun name => bool_decide (name ∈ packages)))
      end
  | FilterArray packages =>
      Some (KeepIf (fun name => bool_decide (name ∈ packages)))
  | FilterOther => Some BadFilter
  end.

Definition getCurrentDependenciesWith (read : readResult) (opts : options)
    : option (jsError + gmap jsstring jsstring) :=
  match read with
  | ReadFailed error => Some (inl (Passed error))
  | ReadJson None =>
      Some (inl (NewError (js "package.json does not contain valid json")))
  | ReadJson (Some json) =>
      let allDependencies : gmap jsstring jsstring := ∅ in
      let allDependencies :=
        if prod opts || negb (dev opts)
        then mergeObjects (Some allDependencies) (dependencies json)
        else allDependencies in
      let allDependencies :=
        if dev opts || (negb (prod opts) && negb (dev opts))
        then mergeObjects (Some allDependencies) (devDependencies json)
        else allDependencies in
      f ← readFilterWith (filterOption opts);
      match f with
      | NoFilter => Some (inr allDependencies)
      | KeepIf filterPackages =>
          Some (inr (filter (fun entry => filterPackages entry.1 = true)
                            allDependencies))
      | BadFilter =>
          Some (inl (NewError (js "Invalid packages filter. Must be a RegExp, array, or comma-or-space-delimited list.")))
      end
  end.

End RegExpEngine.

(** The engine of the fragment this development interprets. *)
Definition fragmentRegExp (source : jsstring) : option (jsstring -> bool) :=
  regexTest <$> compile source.

(** ** The installed packages *)




(** *** Vocabulary *)



(** The component the upgrader puts at a position when the target has no
    wildcard: the declaration's wildcard, or the target's component. *)
Definition keepWildcard (currentDigit newDigit : jsstring) : jsstring :=
  if isWildDigit currentDigit then currentDigit else newDigit.

(** An object that may be [undefined], as the properties it brings to a
    merge: all but [__proto__]. *)
Definition objectOf (o : option (gmap jsstring jsstring))
    : gmap jsstring jsstring :=
  delete protoKey (default ∅ o).

(** An object on which [hasOwnProperty] is the inherited method: it has no
    own property of that name.  [undefined] is not iterated over. *)
Definition ordinaryObject (o : option (gmap jsstring jsstring)) : Prop :=
  match o with
  | Some m => m !! hasOwnPropertyKey = None
  | None => True
  end.

(** The dependencies the two flags select: the production ones alone, the
    development ones alone, or both, a development declaration taking
    precedence. *)
Definition selectedDependencies (json : packageJson) (prod dev : bool)
    : gmap jsstring jsstring :=
  if prod && negb dev then objectOf (dependencies json)
  else if dev && negb prod then objectOf (devDependencies json)
  else objectOf (devDependencies json) ∪ objectOf (dependencies json).




(** * Properties *)

(** ** Splitting and joining *)

Lemma split_cons_inv sep s : exists h t, split sep s = h :: t.
Proof.
  destruct s as [|c s]; simpl; [eauto|].
  case_bool_decide; [eauto|].
  destruct (split sep s); eauto.
Qed.

Lemma split_not_nil sep s : split sep s <> [].
Proof. destruct (split_cons_inv sep s) as (h & t & ->). discriminate. Qed.

Lemma split_length_pos sep s : (0 < length (split sep s))%nat.
Proof. destruct (split_cons_inv sep s) as (h & t & ->). simpl. lia. Qed.

Lemma split_no_sep sep s : Forall (fun c => sep ∉ c) (split sep s).
Proof.
  induction s as [|c s IH]; simpl.
  - repeat constructor. apply not_elem_of_nil.
  - case_bool_decide as Hc.
    + constructor; [apply not_elem_of_nil | exact IH].
    + destruct (split sep s) as [|h t]; inversion IH; subst.
      * repeat constructor. rewrite list_elem_of_singleton. congruence.
      * constructor; [|assumption].
        rewrite elem_of_cons. intros [->|?]; tauto.
Qed.

Lemma split_plain sep x : sep ∉ x -> split sep x = [x].
Proof.
  induction x as [|c x IH]; simpl; [reflexivity|].
  rewrite not_elem_of_cons. intros [Hc Hx].
  rewrite bool_decide_false by congruence.
  rewrite IH by assumption. reflexivity.
Qed.

Lemma split_app_sep sep x r :
  sep ∉ x -> split sep (x ++ sep :: r) = x :: split sep r.
Proof.
  induction x as [|c x IH]; simpl.
  - intros _. rewrite bool_decide_true by reflexivity. reflexivity.
  - rewrite not_elem_of_cons. intros [Hc Hx].
    rewrite bool_decide_false by congruence.
    rewrite IH by assumption. reflexivity.
Qed.

Lemma split_join sep l :
  l <> [] -> Forall (fun c => sep ∉ c) l -> split sep (join sep l) = l.
Proof.
  induction l as [|x l IH]; [congruence|].
  intros _ Hall. inversion Hall as [|? ? Hx Hl]; subst.
  destruct l as [|y l].
  - simpl. apply split_plain. assumption.
  - change (join sep (x :: y :: l)) with (x ++ sep :: join sep (y :: l)).
    rewrite split_app_sep by assumption.
    rewrite IH; [reflexivity | discriminate | assumption].
Qed.

Lemma split_head sep c r :
  c <> sep -> exists h t, split sep (c :: r) = (c :: h) :: t.
Proof.
  intros Hc. simpl. rewrite bool_decide_false by assumption.
  destruct (split sep r); eauto.
Qed.

Lemma join_head sep c h t : exists r, join sep ((c :: h) :: t) = c :: r.
Proof. destruct t; simpl; eauto. Qed.

(** ** The constraint prefix *)

Lemma getVersionConstraints_all d :
  Forall (fun c => isConstraintChar c = true) (getVersionConstraints d).
Proof.
  induction d as [|c d IH]; simpl; [constructor|].
  destruct (isConstraintChar c) eqn:E; constructor; assumption.
Qed.

Lemma getVersionConstraints_split d :
  d = getVersionConstraints d ++ drop (length (getVersionConstraints d)) d.
Proof.
  induction d as [|c d IH]; simpl; [reflexivity|].
  destruct (isConstraintChar c); simpl; [f_equal; exact IH | reflexivity].
Qed.

Lemma getVersionConstraints_rest d :
  match drop (length (getVersionConstraints d)) d with
  | [] => True
  | c :: _ => isConstraintChar c = false
  end.
Proof.
  induction d as [|c d IH]; simpl; [exact I|].
  destruct (isConstraintChar c) eqn:E; simpl; assumption.
Qed.

Lemma getVersionConstraints_app p s :
  Forall (fun c => isConstraintChar c = true) p ->
  getVersionConstraints (p ++ s) = p ++ getVersionConstraints s.
Proof.
  induction 1 as [|c p Hc _ IH]; simpl; [reflexivity|].
  rewrite Hc, IH. reflexivity.
Qed.

Lemma getVersionConstraints_stop c r :
  isConstraintChar c = false -> getVersionConstraints (c :: r) = [].
Proof. intros E. simpl. rewrite E. reflexivity. Qed.

Lemma getVersionConstraints_fixed p :
  Forall (fun c => isConstraintChar c = true) p -> getVersionConstraints p = p.
Proof.
  intros Hp. rewrite <- (app_nil_r p) at 1.
  rewrite getVersionConstraints_app by assumption. simpl. apply app_nil_r.
Qed.

Lemma dot_isConstraintChar : isConstraintChar dot = true.
Proof. reflexivity. Qed.

Lemma body_of_app p s :
  Forall (fun c => isConstraintChar c = true) p ->
  getVersionConstraints s = [] ->
  getVersionConstraints (p ++ s) = p /\ body (p ++ s) = s.
Proof.
  intros Hp Hs. unfold body.
  rewrite getVersionConstraints_app, Hs, app_nil_r by assumption.
  split; [reflexivity|]. apply drop_app_length.
Qed.

(** The first component of a non-empty body starts with the character that
    closed the prefix. *)
Lemma body_components d :
  body d = [] \/
  exists c h t, isConstraintChar c = false /\ split dot (body d) = (c :: h) :: t.
Proof.
  pose proof (getVersionConstraints_rest d) as Hr. fold (body d) in Hr.
  destruct (body d) as [|c r]; [left; reflexivity|right].
  destruct (split_head dot c r) as (h & t & E).
  - intros ->. rewrite dot_isConstraintChar in Hr. discriminate.
  - eauto.
Qed.

(** ** The digit comparator *)

Lemma numGt_irrefl a : numGt a a = false.
Proof. destruct a as [x|]; simpl; [apply Z.ltb_irrefl | reflexivity]. Qed.

Lemma versionDigitComparison_same d : versionDigitComparison d d = 0.
Proof.
  unfold versionDigitComparison. rewrite numGt_irrefl.
  rewrite bool_decide_true by reflexivity. reflexivity.
Qed.

Lemma versionDigitComparison_values d1 d2 :
  versionDigitComparison d1 d2 = 1 \/ versionDigitComparison d1 d2 = 0
  \/ versionDigitComparison d1 d2 = -1.
Proof.
  unfold versionDigitComparison.
  destruct (numGt _ _); [tauto|].
  destruct (_ || _); tauto.
Qed.

(** ** The loop over the components *)

Ltac propose_cases :=
  repeat match goal with
         | |- context [if ?b then _ else _] => destruct b eqn:?
         end.

Lemma proposeComponents_length b cs ls :
  length (proposeComponents b cs ls) = Nat.min (length cs) (length ls).
Proof.
  revert b ls. induction cs as [|c cs IH]; intros b [|l ls]; simpl; try reflexivity.
  propose_cases; simpl; rewrite IH; reflexivity.
Qed.

Lemma proposeComponents_lookup b cs ls i o :
  proposeComponents b cs ls !! i = Some o ->
  cs !! i = Some o \/ ls !! i = Some o.
Proof.
  revert b ls i. induction cs as [|c cs IH]; intros b [|l ls] i; simpl;
    try discriminate.
  propose_cases; destruct i as [|i]; simpl;
    try (intros [= <-]; tauto); apply IH.
Qed.

Lemma proposeComponents_wild b cs ls i c :
  cs !! i = Some c -> isWildDigit c = true -> (i < length ls)%nat ->
  proposeComponents b cs ls !! i = Some c.
Proof.
  revert b ls i. induction cs as [|c0 cs IH]; intros b [|l ls] i; simpl;
    try discriminate; try lia.
  destruct i as [|i]; simpl.
  - intros [= ->] -> _. reflexivity.
  - intros Hc Hw Hi. propose_cases; simpl; apply IH; auto; lia.
Qed.

Lemma proposeComponents_no_sep b cs ls sep :
  Forall (fun c => sep ∉ c) cs -> Forall (fun c => sep ∉ c) ls ->
  Forall (fun c => sep ∉ c) (proposeComponents b cs ls).
Proof.
  intros Hcs Hls. apply Forall_lookup_2. intros i o Ho.
  destruct (proposeComponents_lookup _ _ _ _ _ Ho) as [E|E];
    [exact (Forall_lookup_1 _ _ _ _ Hcs E) | exact (Forall_lookup_1 _ _ _ _ Hls E)].
Qed.

Lemma proposeComponents_not_nil b c cs l ls :
  proposeComponents b (c :: cs) (l :: ls) <> [].
Proof.
  intros E. apply (f_equal length) in E.
  rewrite proposeComponents_length in E. simpl in E. lia.
Qed.

(** A second pass over the result of a pass that had bumped the version
    changes nothing, whatever its own flag. *)
Lemma proposeComponents_after_bump b' cs ls :
  proposeComponents b' (proposeComponents true cs ls) ls
  = proposeComponents true cs ls.
Proof.
  revert b' ls. induction cs as [|c cs IH]; intros b' [|l ls]; simpl;
    try reflexivity.
  destruct (isWildDigit c) eqn:Hw; simpl.
  - rewrite Hw, IH. reflexivity.
  - assert (Hl : proposeComponents b' (l :: proposeComponents true cs ls) (l :: ls)
                 = l :: proposeComponents true cs ls).
    { simpl. rewrite versionDigitComparison_same. simpl.
      destruct (isWildDigit l), b'; rewrite IH; reflexivity. }
    propose_cases; exact Hl.
Qed.

Lemma proposeComponents_idempotent cs ls :
  proposeComponents false (proposeComponents false cs ls) ls
  = proposeComponents false cs ls.
Proof.
  revert ls. induction cs as [|c cs IH]; intros [|l ls]; simpl; try reflexivity.
  destruct (isWildDigit c) eqn:Hw; simpl.
  - rewrite Hw, IH. reflexivity.
  - destruct (versionDigitComparison c l <? 0) eqn:Hlt; simpl.
    + rewrite versionDigitComparison_same. simpl.
      destruct (isWildDigit l); rewrite proposeComponents_after_bump; reflexivity.
    + destruct (0 <? versionDigitComparison c l) eqn:Hgt; simpl.
      * rewrite versionDigitComparison_same. simpl.
        destruct (isWildDigit l); rewrite IH; reflexivity.
      * rewrite Hw, Hlt, Hgt. simpl. rewrite IH. reflexivity.
Qed.

(** ** The declaration upgrader *)

Lemma upgrade_absent d : upgradeDependencyDeclaration d None = d.
Proof. reflexivity. Qed.

Lemma upgrade_empty d : upgradeDependencyDeclaration d (Some []) = d.
Proof. reflexivity. Qed.

(** With a target, the declaration is either its prefix alone, or its prefix
    followed by the proposed components of a body whose first component
    starts with a character that is not a constraint character. *)
Lemma upgrade_cases d t :
  t <> [] ->
  (body d = [] /\
   upgradeDependencyDeclaration d (Some t) = getVersionConstraints d)
  \/
  (exists c h cs,
      isConstraintChar c = false /\
      split dot (body d) = (c :: h) :: cs /\
      upgradeDependencyDeclaration d (Some t)
      = getVersionConstraints d
          ++ join dot (proposeComponents false ((c :: h) :: cs) (split dot t))).
Proof.
  intros Ht. destruct t as [|t0 t]; [congruence|].
  unfold upgradeDependencyDeclaration. fold (body d).
  destruct (body_components d) as [E|(c & h & cs & Hc & E)].
  - left. rewrite E. simpl. tauto.
  - right. exists c, h, cs. rewrite E. auto.
Qed.

(** The components of the result, read back from the string. *)
Lemma upgrade_components d t c h cs :
  split dot (body d) = (c :: h) :: cs ->
  split dot (join dot (proposeComponents false ((c :: h) :: cs) (split dot t)))
  = proposeComponents false ((c :: h) :: cs) (split dot t).
Proof.
  intros E. destruct (split_cons_inv dot t) as (l & ls & El). rewrite El.
  apply split_join.
  - apply proposeComponents_not_nil.
  - apply proposeComponents_no_sep.
    + rewrite <- E. apply split_no_sep.
    + rewrite <- El. apply split_no_sep.
Qed.

Lemma isTargetVersion_wellFormed t :
  isTargetVersion t = true -> wellFormedTarget (Some t).
Proof.
  unfold isTargetVersion, wellFormedTarget. destruct t as [|c t]; [reflexivity|].
  intros Hall. apply getVersionConstraints_stop.
  simpl in Hall. case_bool_decide as Hd.
  - simpl in Hall. discriminate.
  - destruct (split dot t) as [|h r]; simpl in Hall;
      apply andb_prop in Hall as [Hall _];
      unfold allDigits in Hall; simpl in Hall;
      apply andb_prop in Hall as [Hall _];
      unfold isConstraintChar, isNaNChar; rewrite Hall; simpl;
      rewrite bool_decide_false; [reflexivity| |reflexivity|];
      intros ->; discriminate.
Qed.

(** C2. Upgrading a declaration against a target version and upgrading the
    result again against the same target yields the same string.  The
    target is any target the upgrader accepts without a constraint prefix
    of its own, which every Target Version of the data model is
    ([isTargetVersion_wellFormed]); the declaration is any string. *)
Theorem upgradeDependencyDeclaration_idempotent d latest :
  wellFormedTarget latest ->
  upgradeDependencyDeclaration (upgradeDependencyDeclaration d latest) latest
  = upgradeDependencyDeclaration d latest.
Proof.
  destruct latest as [t|]; [|reflexivity].
  destruct t as [|t0 t]; [reflexivity|].
  set (tt := t0 :: t). intros Hwf. simpl in Hwf.
  assert (Htt : tt <> []) by discriminate.
  destruct (upgrade_cases d tt Htt) as [[Hb ->]|(c & h & cs & Hc & E & ->)].
  - pose proof (getVersionConstraints_all d) as Hall.
    destruct (upgrade_cases (getVersionConstraints d) tt Htt)
      as [[_ ->]|(c & h & cs & _ & E & _)].
    + apply getVersionConstraints_fixed. assumption.
    + unfold body in E. rewrite getVersionConstraints_fixed in E by assumption.
      rewrite drop_all in E. discriminate.
  - pose proof (upgrade_components d tt c h cs E) as Hsplit.
    destruct (split_cons_inv dot tt) as (l & ls & El).
    assert (Hl : exists l', l = t0 :: l').
    { destruct (split_head dot t0 t) as (l' & r & E').
      - intros ->. unfold tt in Hwf. simpl in Hwf. discriminate.
      - fold tt in E'. rewrite El in E'. injection E' as -> _. eauto. }
    destruct Hl as (l' & ->).
    assert (Hlc : isConstraintChar t0 = false).
    { unfold tt in Hwf. simpl in Hwf. destruct (isConstraintChar t0); [discriminate|reflexivity]. }
    set (out := proposeComponents false ((c :: h) :: cs) (split dot tt)) in *.
    assert (Hout : exists c' h' r, isConstraintChar c' = false /\ out = (c' :: h') :: r).
    { unfold out. rewrite El. simpl. propose_cases; eauto 10. }
    destruct Hout as (c' & h' & r & Hc' & Eout).
    destruct (join_head dot c' h' r) as (j & Ej). rewrite <- Eout in Ej.
    destruct (body_of_app (getVersionConstraints d) (join dot out)) as [Hp Hbody].
    { apply getVersionConstraints_all. }
    { rewrite Ej. apply getVersionConstraints_stop. assumption. }
    unfold upgradeDependencyDeclaration at 1. fold tt.
    unfold tt at 1. fold tt.
    fold (body (getVersionConstraints d ++ join dot out)).
    rewrite Hbody, Hp, Hsplit, Eout. rewrite <- Eout.
    unfold out. rewrite proposeComponents_idempotent. reflexivity.
Qed.

(** C2, an instance: ["1.x.5"] against ["2.0.1"]. *)
Lemma upgradeDependencyDeclaration_idempotent_witness :
  wellFormedTarget (Some (js "2.0.1")) /\
  upgradeDependencyDeclaration
    (upgradeDependencyDeclaration (js "^1.x.5") (Some (js "2.0.1")))
    (Some (js "2.0.1"))
  = upgradeDependencyDeclaration (js "^1.x.5") (Some (js "2.0.1")).
Proof.
  split; [reflexivity|].
  apply (upgradeDependencyDeclaration_idempotent (js "^1.x.5") (Some (js "2.0.1"))).
  reflexivity.
Defined.

(** With a well-formed target the result has the constraint prefix of the
    declaration, so its body is the result without that prefix. *)
Lemma upgrade_keeps_prefix d latest :
  wellFormedTarget latest ->
  getVersionConstraints (upgradeDependencyDeclaration d latest)
  = getVersionConstraints d.
Proof.
  destruct latest as [[|t0 t]|]; [reflexivity| |reflexivity].
  set (tt := t0 :: t). intros Hwf. simpl in Hwf.
  assert (Htt : tt <> []) by discriminate.
  destruct (upgrade_cases d tt Htt) as [[Hb ->]|(c & h & cs & Hc & E & ->)].
  - apply getVersionConstraints_fixed, getVersionConstraints_all.
  - assert (Hlc : isConstraintChar t0 = false).
    { unfold tt in Hwf. simpl in Hwf.
      destruct (isConstraintChar t0); [discriminate|reflexivity]. }
    destruct (split_head dot t0 t) as (l' & ls & El).
    { intros ->. rewrite dot_isConstraintChar in Hlc. discriminate. }
    fold tt in El. rewrite El.
    assert (Hout : exists c' h' r,
               isConstraintChar c' = false
               /\ proposeComponents false ((c :: h) :: cs) ((t0 :: l') :: ls)
                  = (c' :: h') :: r).
    { simpl. propose_cases; eauto 10. }
    destruct Hout as (c' & h' & r & Hc' & ->).
    destruct (join_head dot c' h' r) as (j & ->).
    apply body_of_app; [apply getVersionConstraints_all|].
    apply getVersionConstraints_stop. assumption.
Qed.

Lemma resultComponents_reparsed d latest :
  wellFormedTarget latest ->
  resultComponents d latest = components (upgradeDependencyDeclaration d latest).
Proof.
  intros Hwf. unfold resultComponents, components, body.
  rewrite upgrade_keeps_prefix by assumption. reflexivity.
Qed.

(** The cases of the specification. *)
Example upgrade_keeps_wildcard :
  upgradeDependencyDeclaration (js "1.2.x") (Some (js "1.3.2")) = js "1.3.x".
Proof. vm_compute. reflexivity. Qed.

Example upgrade_snaps_after_bump :
  upgradeDependencyDeclaration (js "1.x.1") (Some (js "2.0.1")) = js "2.x.1".
Proof. vm_compute. reflexivity. Qed.

Example upgrade_keeps_constraint :
  upgradeDependencyDeclaration (js ">=1.2.0") (Some (js "1.5.0")) = js ">=1.5.0".
Proof. vm_compute. reflexivity. Qed.

Example upgrade_to_older_target :
  upgradeDependencyDeclaration (js "2.0.0") (Some (js "1.9.0")) = js "1.9.0"
  /\ @isUpgradeable exactSemver (js "2.0.0") (Some (js "1.9.0")) = false.
Proof. split; vm_compute; reflexivity. Qed.

(** The hypothesis of C2 is needed: a target that opens with a constraint
    character gives it to the declaration, and the next pass takes it for
    a part of the prefix. *)
Example upgrade_not_idempotent_on_prefixed_target :
  upgradeDependencyDeclaration (js "1.0") (Some (js "v2.0")) = js "v2.0" /\
  upgradeDependencyDeclaration (js "v2.0") (Some (js "v2.0")) = js "vv2.0".
Proof. split; vm_compute; reflexivity. Qed.

Lemma resultComponents_falsy d latest :
  latest = None \/ latest = Some [] -> resultComponents d latest = components d.
Proof. intros [->| ->]; reflexivity. Qed.

Lemma resultComponents_cases d t :
  t <> [] ->
  (components d = [[]] /\ resultComponents d (Some t) = [[]])
  \/ resultComponents d (Some t)
     = proposeComponents false (components d) (split dot t).
Proof.
  intros Ht. unfold resultComponents, components.
  destruct (upgrade_cases d t Ht) as [[Hb ->]|(c & h & cs & Hc & E & ->)].
  - left. rewrite Hb, drop_all. auto.
  - right. rewrite drop_app_length, E. apply (upgrade_components d). assumption.
Qed.

(** C3, as stated, fails: the wildcard of ["1.2.x"] is cut off by the target
    ["1.3"], which has no third component. *)
Lemma wildcard_dropped_by_shorter_target :
  ~ (forall (d : jsstring) (latest : option jsstring) (i : nat) (c : jsstring),
        components d !! i = Some c -> isWildDigit c = true ->
        resultComponents d latest !! i = Some c).
Proof.
  intros Hclaim.
  specialize (Hclaim (js "1.2.x") (Some (js "1.3")) 2%nat (js "x")
                eq_refl eq_refl).
  vm_compute in Hclaim. discriminate.
Qed.

(** C3 (amended). A wildcard component of the body of the declaration stays
    the same marker at the same position of the result whenever the target
    has a component at that position (or is absent or empty, the
    declaration then being returned as it is).  Components past the last
    component of the target are cut off, wildcards included. *)
Theorem wildcards_preserved_within_target d latest i c :
  components d !! i = Some c ->
  isWildDigit c = true ->
  (forall t, latest = Some t -> t <> [] -> (i < length (split dot t))%nat) ->
  resultComponents d latest !! i = Some c.
Proof.
  intros Hc Hw Hi.
  destruct latest as [[|t0 t]|]; [exact Hc | | exact Hc].
  assert (Ht : t0 :: t <> []) by discriminate.
  specialize (Hi _ eq_refl Ht).
  destruct (resultComponents_cases d (t0 :: t) Ht) as [[E ->]| ->].
  - rewrite <- E. exact Hc.
  - apply proposeComponents_wild; assumption.
Qed.

(** C3 (amended), an instance: the [x] of ["1.x.5"] against ["2.0.1"]. *)
Lemma wildcards_preserved_within_target_witness :
  resultComponents (js "1.x.5") (Some (js "2.0.1")) !! 1%nat = Some (js "x").
Proof.
  apply (wildcards_preserved_within_target (js "1.x.5") (Some (js "2.0.1"))
           1%nat (js "x")).
  - reflexivity.
  - reflexivity.
  - intros t [= <-] _. vm_compute. lia.
Defined.

(** C10. With a non-empty target of [n] components, the body of the result
    has min(m, n) components, [m] being the number of components of the
    body of the declaration, and each of them is the component of the
    declaration or the component of the target at its index. *)
Theorem upgrade_components_from_either d t :
  t <> [] ->
  length (resultComponents d (Some t))
  = Nat.min (length (components d)) (length (split dot t))
  /\ forall i o,
      resultComponents d (Some t) !! i = Some o ->
      components d !! i = Some o \/ split dot t !! i = Some o.
Proof.
  intros Ht.
  destruct (resultComponents_cases d t Ht) as [[E ->]| ->].
  - rewrite E. pose proof (split_length_pos dot t). split.
    + cbn [length]. lia.
    + intros i o Ho. left. exact Ho.
  - split.
    + apply proposeComponents_length.
    + intros i o. apply proposeComponents_lookup.
Qed.

(** C10, an instance: [">=1.2.3"] against ["1.5"]. *)
Lemma upgrade_components_from_either_witness :
  length (resultComponents (js ">=1.2.3") (Some (js "1.5")))
  = Nat.min (length (components (js ">=1.2.3"))) (length (split dot (js "1.5")))
  /\ forall i o,
      resultComponents (js ">=1.2.3") (Some (js "1.5")) !! i = Some o ->
      components (js ">=1.2.3") !! i = Some o
      \/ split dot (js "1.5") !! i = Some o.
Proof.
  apply (upgrade_components_from_either (js ">=1.2.3") (js "1.5")).
  discriminate.
Defined.

(** ** Rounding to a Number is monotone *)

Lemma roundQuotient_range q r h : q <= roundQuotient q r h <= q + 1.
Proof.
  unfold roundQuotient.
  destruct (r <? h), (h <? r), (Z.even q); lia.
Qed.

Lemma roundQuotient_mono q r1 r2 h :
  r1 <= r2 -> roundQuotient q r1 h <= roundQuotient q r2 h.
Proof.
  intros Hr. unfold roundQuotient.
  destruct (Z.ltb_spec r1 h), (Z.ltb_spec h r1), (Z.ltb_spec r2 h),
    (Z.ltb_spec h r2), (Z.even q); lia.
Qed.

(** The exponent, the unit in the last place and the significand of an
    integer from 2^53 on. *)
Lemma significand_bounds m :
  2 ^ 53 <= m ->
  let e := Z.log2 m in
  let p := 2 ^ (e - 52) in
  53 <= e /\ 0 < p /\ 2 ^ e = 2 ^ 52 * p /\ 2 ^ (e + 1) = 2 ^ 53 * p
  /\ 2 ^ 52 <= m / p < 2 ^ 53.
Proof.
  intros Hm e p.
  assert (Hpos : 0 < m) by (pose proof (Z.pow_pos_nonneg 2 53); lia).
  assert (He : 53 <= e).
  { unfold e. rewrite <- (Z.log2_pow2 53) by lia. apply Z.log2_le_mono. exact Hm. }
  assert (Hp : 0 < p) by (apply Z.pow_pos_nonneg; lia).
  assert (E1 : 2 ^ e = 2 ^ 52 * p).
  { unfold p. rewrite <- Z.pow_add_r by lia. f_equal. lia. }
  assert (E2 : 2 ^ (e + 1) = 2 ^ 53 * p).
  { unfold p. rewrite <- Z.pow_add_r by lia. f_equal. lia. }
  destruct (Z.log2_spec m Hpos) as [Hlo Hhi]. fold e in Hlo, Hhi.
  replace (Z.succ e) with (e + 1) in Hhi by lia.
  repeat split; try assumption.
  - apply Z.div_le_lower_bound; [assumption|]. rewrite Z.mul_comm, <- E1. exact Hlo.
  - apply Z.div_lt_upper_bound; [assumption|]. rewrite Z.mul_comm, <- E2. exact Hhi.
Qed.

Lemma roundMagnitude_small m : m < 2 ^ 53 -> roundMagnitude m = m.
Proof.
  intros Hm. unfold roundMagnitude.
  destruct (Z.ltb_spec m (2 ^ 53)); [reflexivity | lia].
Qed.

Lemma roundMagnitude_large m :
  2 ^ 53 <= m ->
  roundMagnitude m
  = Z.min (roundQuotient (m / 2 ^ (Z.log2 m - 52)) (m mod 2 ^ (Z.log2 m - 52))
                         (2 ^ (Z.log2 m - 52 - 1)) * 2 ^ (Z.log2 m - 52))
          (2 ^ 1024).
Proof.
  intros Hm. unfold roundMagnitude.
  destruct (Z.ltb_spec m (2 ^ 53)); [lia | reflexivity].
Qed.

Lemma roundMagnitude_large_bounds m :
  2 ^ 53 <= m ->
  Z.min (2 ^ Z.log2 m) (2 ^ 1024) <= roundMagnitude m
  /\ roundMagnitude m <= Z.min (2 ^ (Z.log2 m + 1)) (2 ^ 1024).
Proof.
  intros Hm. rewrite roundMagnitude_large by assumption.
  destruct (significand_bounds m Hm) as (He & Hp & E1 & E2 & Hq).
  rewrite E1, E2.
  set (p := 2 ^ (Z.log2 m - 52)) in *.
  set (q := m / p) in *.
  pose proof (roundQuotient_range q (m mod p) (2 ^ (Z.log2 m - 52 - 1))) as Hr.
  set (q' := roundQuotient q (m mod p) (2 ^ (Z.log2 m - 52 - 1))) in *.
  generalize (2 ^ 1024). intros big.
  assert (2 ^ 52 * p <= q' * p) by (apply Z.mul_le_mono_nonneg_r; lia).
  assert (q' * p <= 2 ^ 53 * p) by (apply Z.mul_le_mono_nonneg_r; lia).
  lia.
Qed.

Lemma roundMagnitude_mono a b :
  0 <= a <= b -> roundMagnitude a <= roundMagnitude b.
Proof.
  intros [Ha Hab].
  assert (Hbig : 2 ^ 53 <= 2 ^ 1024) by (apply Z.pow_le_mono_r; lia).
  destruct (Z.lt_ge_cases a (2 ^ 53)) as [Hsa|Hla];
    destruct (Z.lt_ge_cases b (2 ^ 53)) as [Hsb|Hlb].
  - rewrite !roundMagnitude_small by assumption. exact Hab.
  - rewrite roundMagnitude_small by assumption.
    destruct (roundMagnitude_large_bounds b Hlb) as [Hlo _].
    destruct (significand_bounds b Hlb) as (He & _).
    assert (2 ^ 53 <= 2 ^ Z.log2 b) by (apply Z.pow_le_mono_r; lia).
    revert Hlo Hbig. generalize (2 ^ 1024). intros. lia.
  - lia.
  - assert (Hlog : Z.log2 a <= Z.log2 b) by (apply Z.log2_le_mono; exact Hab).
    destruct (Z.eq_dec (Z.log2 a) (Z.log2 b)) as [Heq|Hne].
    + rewrite (roundMagnitude_large a), (roundMagnitude_large b) by assumption.
      rewrite Heq.
      destruct (significand_bounds b Hlb) as (He & Hp & _).
      set (p := 2 ^ (Z.log2 b - 52)) in *.
      set (h := 2 ^ (Z.log2 b - 52 - 1)).
      apply Z.min_le_compat_r.
      apply Z.mul_le_mono_nonneg_r; [lia|].
      assert (Hq : a / p <= b / p) by (apply Z.div_le_mono; lia).
      destruct (Z.eq_dec (a / p) (b / p)) as [Eq|Nq].
      * rewrite Eq. apply roundQuotient_mono.
        pose proof (Z.div_mod a p ltac:(lia)). pose proof (Z.div_mod b p ltac:(lia)).
        rewrite Eq in *. nia.
      * pose proof (roundQuotient_range (a / p) (a mod p) h).
        pose proof (roundQuotient_range (b / p) (b mod p) h). lia.
    + destruct (roundMagnitude_large_bounds a Hla) as [_ Hhi].
      destruct (roundMagnitude_large_bounds b Hlb) as [Hlo _].
      assert (2 ^ (Z.log2 a + 1) <= 2 ^ Z.log2 b) by (apply Z.pow_le_mono_r; lia).
      revert Hlo Hhi. generalize (2 ^ 1024). intros. lia.
Qed.

Lemma roundMagnitude_nonneg m : 0 <= m -> 0 <= roundMagnitude m.
Proof.
  intros Hm. change 0 with (roundMagnitude 0) at 1.
  apply roundMagnitude_mono. lia.
Qed.

Lemma toNumber_mono a b : a <= b -> toNumber a <= toNumber b.
Proof.
  intros Hab. unfold toNumber.
  destruct (Z.lt_trichotomy a 0) as [Ha|[->|Ha]];
    destruct (Z.lt_trichotomy b 0) as [Hb|[->|Hb]]; try lia.
  - rewrite !Z.sgn_neg by assumption.
    pose proof (roundMagnitude_mono (Z.abs b) (Z.abs a) ltac:(lia)). lia.
  - rewrite Z.sgn_neg by assumption. rewrite Z.sgn_0.
    pose proof (roundMagnitude_nonneg (Z.abs a) ltac:(lia)). lia.
  - rewrite Z.sgn_neg, Z.sgn_pos by assumption.
    pose proof (roundMagnitude_nonneg (Z.abs a) ltac:(lia)).
    pose proof (roundMagnitude_nonneg (Z.abs b) ltac:(lia)). lia.
  - rewrite Z.sgn_0, Z.sgn_pos by assumption.
    pose proof (roundMagnitude_nonneg (Z.abs b) ltac:(lia)). lia.
  - rewrite !Z.sgn_pos by assumption.
    pose proof (roundMagnitude_mono (Z.abs a) (Z.abs b) ltac:(lia)). lia.
Qed.

(** ** Declarations behind their target *)

Lemma numLeb_not_greater c n :
  numLeb c n = true -> numGt (parseInt c) (parseInt n) = false.
Proof.
  unfold numLeb, parseInt.
  destruct (parseIntMath c) as [a|], (parseIntMath n) as [b|]; try discriminate.
  simpl. intros Hle. apply Z.leb_le in Hle. apply Z.ltb_ge.
  apply toNumber_mono. exact Hle.
Qed.

Lemma numLeb_not_wild c n :
  numLeb c n = true -> isWildDigit c = false /\ isWildDigit n = false.
Proof.
  unfold numLeb, isWildDigit. intros Hle.
  assert (Hx : parseIntMath (js "x") = None) by reflexivity.
  assert (Hs : parseIntMath (js "*") = None) by reflexivity.
  split; apply orb_false_intro; apply bool_decide_eq_false; intros ->;
    rewrite ?Hx, ?Hs in Hle;
    try discriminate; destruct (parseIntMath c); discriminate.
Qed.

Lemma numLeb_comparison c n :
  numLeb c n = true ->
  versionDigitComparison c n = -1 \/ (versionDigitComparison c n = 0 /\ c = n).
Proof.
  intros Hle. unfold versionDigitComparison.
  rewrite (numLeb_not_greater _ _ Hle).
  destruct (numLeb_not_wild _ _ Hle) as [-> ->].
  case_bool_decide; simpl; auto.
Qed.

Lemma proposeComponents_behind b cs ls :
  (forall i c n, cs !! i = Some c -> ls !! i = Some n -> numLeb c n = true) ->
  proposeComponents b cs ls = take (length cs) ls.
Proof.
  revert b ls. induction cs as [|c cs IH]; intros b [|l ls] Hle; simpl;
    try reflexivity.
  pose proof (Hle 0%nat c l eq_refl eq_refl) as H0.
  assert (Hrest : forall i c n, cs !! i = Some c -> ls !! i = Some n ->
                                numLeb c n = true).
  { intros i. apply (Hle (S i)). }
  destruct (numLeb_not_wild _ _ H0) as [-> _].
  destruct (numLeb_comparison _ _ H0) as [-> |[-> ->]]; simpl.
  - f_equal. apply IH. assumption.
  - destruct b; f_equal; apply IH; assumption.
Qed.

(** C1. A declaration without constraint prefix, each of whose components
    is numerically at most the component of the target at the same
    position, is upgraded to the target cut to the declaration's number of
    components: the first min(|d|, |t|) components of the target, joined
    with dots.  (A component that is numerically at most a component of
    the target is an integer, not a wildcard marker; the components of
    the declaration past the last one of the target are not constrained.) *)
Theorem upgrade_behind_is_truncated_target d t :
  getVersionConstraints d = [] ->
  t <> [] ->
  (forall i c n,
      split dot d !! i = Some c -> split dot t !! i = Some n ->
      numLeb c n = true) ->
  upgradeDependencyDeclaration d (Some t)
  = join dot (take (Nat.min (length (split dot d)) (length (split dot t)))
                   (split dot t)).
Proof.
  intros Hp Ht Hle.
  assert (Hbody : body d = d) by (unfold body; rewrite Hp; reflexivity).
  assert (Htake : take (Nat.min (length (split dot d)) (length (split dot t)))
                       (split dot t)
                  = take (length (split dot d)) (split dot t)).
  { destruct (Nat.le_ge_cases (length (split dot d)) (length (split dot t))).
    - rewrite Nat.min_l by assumption. reflexivity.
    - rewrite Nat.min_r by assumption. rewrite !take_ge by lia. reflexivity. }
  rewrite Htake.
  destruct (upgrade_cases d t Ht) as [[Hb _]|(c & h & cs & _ & E & ->)].
  - exfalso. rewrite Hbody in Hb. subst d.
    destruct (split_cons_inv dot t) as (l & ls & El).
    specialize (Hle 0%nat [] l eq_refl). rewrite El in Hle.
    specialize (Hle eq_refl). discriminate.
  - rewrite Hp, Hbody in *. rewrite app_nil_l, <- E.
    rewrite proposeComponents_behind by assumption. reflexivity.
Qed.

(** C1, an instance: ["1.2.3"] against ["1.3.5"], and against the shorter
    target ["2.5"]. *)
Lemma upgrade_behind_is_truncated_target_witness :
  upgradeDependencyDeclaration (js "1.2.3") (Some (js "1.3.5")) = js "1.3.5"
  /\ upgradeDependencyDeclaration (js "1.2.3") (Some (js "2.5")) = js "2.5".
Proof.
  split.
  - apply (upgrade_behind_is_truncated_target (js "1.2.3") (js "1.3.5")).
    + reflexivity.
    + discriminate.
    + intros [|[|[|i]]] c n; simpl; try discriminate;
        intros [= <-] [= <-]; reflexivity.
  - apply (upgrade_behind_is_truncated_target (js "1.2.3") (js "2.5")).
    + reflexivity.
    + discriminate.
    + intros [|[|[|i]]] c n; simpl; try discriminate;
        intros [= <-] [= <-]; reflexivity.
Defined.

(** ** The digit comparator, continued *)

Lemma versionDigitComparison_wild d1 d2 :
  isWildDigit d1 = true \/ isWildDigit d2 = true ->
  versionDigitComparison d1 d2 = 0.
Proof.
  assert (Hx : parseInt (js "x") = None) by reflexivity.
  assert (Hs : parseInt (js "*") = None) by reflexivity.
  unfold versionDigitComparison.
  intros [Hw|Hw]; pose proof Hw as Hw'; unfold isWildDigit in Hw';
    apply orb_prop in Hw' as [E|E]; apply bool_decide_eq_true in E; subst;
    rewrite ?Hx, ?Hs.
  1,2: simpl; rewrite orb_true_r; reflexivity.
  1,2: destruct (parseInt d1); simpl; rewrite orb_true_r; reflexivity.
Qed.

Lemma versionDigitComparison_greater d1 d2 a b :
  parseInt d1 = Some a -> parseInt d2 = Some b -> b < a ->
  versionDigitComparison d1 d2 = 1.
Proof.
  intros E1 E2 Hlt. unfold versionDigitComparison. rewrite E1, E2. simpl.
  rewrite (proj2 (Z.ltb_lt b a) Hlt). reflexivity.
Qed.

(** Every other pair of distinct tokens is LESS, also when the two denote
    the same integer. *)
Lemma versionDigitComparison_otherwise d1 d2 :
  numGt (parseInt d1) (parseInt d2) = false ->
  d1 <> d2 -> isWildDigit d1 = false -> isWildDigit d2 = false ->
  versionDigitComparison d1 d2 = -1.
Proof.
  intros Hgt Hne H1 H2. unfold versionDigitComparison.
  rewrite Hgt, H1, H2, bool_decide_false by assumption. reflexivity.
Qed.

(** C6. The comparator on two distinct tokens of the same integer: ["01"]
    and ["1"] are both read as 1, and the answer is LESS (-1), in both
    orders, where the documentation of the function has 0 for equal
    digits. *)
Theorem versionDigitComparison_equal_values_distinct_text :
  parseInt (js "01") = Some 1 /\ parseInt (js "1") = Some 1
  /\ versionDigitComparison (js "01") (js "1") = -1
  /\ versionDigitComparison (js "1") (js "01") = -1.
Proof. repeat split; vm_compute; reflexivity. Qed.

(** Past 2^53 two integers can be the same Number: they compare as the
    tokens of one integer do. *)
Example versionDigitComparison_past_exact_integers :
  parseInt (js "9007199254740993") = Some 9007199254740992
  /\ versionDigitComparison (js "9007199254740993") (js "9007199254740992") = -1.
Proof. split; vm_compute; reflexivity. Qed.

(** ** The constraint extractor *)

(** C7, as stated, fails: a tab is a white-space character, neither a
    digit nor a wildcard marker, and the extractor stops at it. *)
Lemma getVersionConstraints_stops_at_tab :
  isWhiteSpaceChar tab = true
  /\ specConstraintPrefix (tab :: js "1.0") = [tab]
  /\ getVersionConstraints (tab :: js "1.0") = []
  /\ ~ (forall d, getVersionConstraints d = specConstraintPrefix d).
Proof.
  repeat split; try reflexivity.
  intros Hclaim. specialize (Hclaim (tab :: js "1.0")). discriminate.
Qed.

Lemma isConstraintChar_spec c : isConstraintChar c = true <-> ConstraintChar c.
Proof.
  unfold isConstraintChar, ConstraintChar, isNaNChar, isWildDigit.
  rewrite andb_true_iff, negb_true_iff, orb_false_iff, orb_true_iff,
    !bool_decide_eq_false, bool_decide_eq_true, negb_true_iff, orb_false_iff.
  split.
  - intros [[[Hd Hw]| ->] [Hx Hs]].
    + repeat split; try assumption; try (intros ->; apply Hx + apply Hs; reflexivity).
      rewrite Hw. discriminate.
    + repeat split; try reflexivity; intros E; discriminate.
  - intros (Hd & Hx & Hs & Hw). split.
    + destruct (isWhiteSpaceChar c); [right; auto | left; auto].
    + split; intros [= ->]; congruence.
Qed.

(** C7 (amended). The extractor returns the longest prefix of constraint
    characters: the characters that are not digits, not wildcard markers
    and not white space other than the space character; operators and the
    space qualify.  It stops at the first digit, wildcard marker or other
    white-space character (tab, line feed, ...), and may return the empty
    string. *)
Theorem getVersionConstraints_longest_prefix d :
  exists rest,
    d = getVersionConstraints d ++ rest
    /\ Forall ConstraintChar (getVersionConstraints d)
    /\ match rest with
       | [] => True
       | c :: _ => ~ ConstraintChar c
       end.
Proof.
  exists (body d). split; [apply getVersionConstraints_split|]. split.
  - eapply Forall_impl; [apply getVersionConstraints_all|].
    intros c. apply isConstraintChar_spec.
  - pose proof (getVersionConstraints_rest d) as Hr. fold (body d) in Hr.
    destruct (body d) as [|c r]; [exact I|].
    rewrite <- isConstraintChar_spec, Hr. discriminate.
Qed.

Lemma operators_are_constraint_chars :
  Forall ConstraintChar (js "<>=~^ ").
Proof. repeat constructor; discriminate. Qed.

(** ** The upgradeability predicate and the dependency set upgrader *)

Section VersionManagerProperties.
Context `{Semver}.

(** C4. [isUpgradeable] answers true exactly when the range is valid, the
    range without its constraint prefix is not empty, the target does not
    satisfy that unconstrained range and is not below it; an invalid
    range is answered false, without the other two predicates being
    consulted. *)
Theorem isUpgradeable_true_iff current latest :
  (isUpgradeable current latest = true <->
   validRange current = true /\ body current <> []
   /\ satisfies latest (body current) = false
   /\ ltr latest (body current) = false)
  /\ (validRange current = false -> isUpgradeable current latest = false).
Proof.
  unfold isUpgradeable. fold (body current).
  destruct (validRange current); simpl.
  - split; [|discriminate].
    destruct (body current) as [|c r].
    + split; [discriminate | intros (_ & Hne & _); congruence].
    + rewrite andb_true_iff, !negb_true_iff. split.
      * intros [? ?]. repeat split; [discriminate|assumption..].
      * intros (_ & _ & ? & ?). auto.
  - split; [|reflexivity]. split; [discriminate | intros [? _]; discriminate].
Qed.

(** C8. A declaration that is all constraint prefix is returned unchanged
    by the upgrader and is not upgradeable, whatever the non-empty
    target. *)
Theorem constraint_only_unchanged d t :
  body d = [] -> t <> [] ->
  upgradeDependencyDeclaration d (Some t) = d
  /\ isUpgradeable d (Some t) = false.
Proof.
  intros Hb Ht. split.
  - destruct (upgrade_cases d t Ht) as [[_ ->]|(c & h & cs & _ & E & _)].
    + rewrite (getVersionConstraints_split d) at 2.
      fold (body d). rewrite Hb, app_nil_r. reflexivity.
    + rewrite Hb in E. discriminate.
  - unfold isUpgradeable. fold (body d). rewrite Hb.
    destruct (validRange d); reflexivity.
Qed.

(** The result of [upgradeDependencies], name by name. *)
Lemma upgradeDependencies_lookup_eq currentDependencies latestVersions name :
  upgradeDependencies currentDependencies latestVersions !! name
  = match currentDependencies !! name with
    | Some current =>
        if isUpgradeable current (latestVersions !! name)
        then Some (upgradeDependencyDeclaration current (latestVersions !! name))
        else None
    | None => None
    end.
Proof.
  unfold upgradeDependencies.
  rewrite lookup_fmap, map_lookup_filter, map_lookup_imap.
  destruct (currentDependencies !! name) as [current|]; simpl; [|reflexivity].
  case_guard as Hg; simpl in *.
  - rewrite Hg. reflexivity.
  - destruct (isUpgradeable current (latestVersions !! name)); [congruence|reflexivity].
Qed.

(** Over predicates that return, the result of [upgradeDependencies] has
    exactly the names of [currentDependencies] whose declaration
    [isUpgradeable] accepts together with [latestVersions[name]]; each is
    mapped to its upgraded declaration, and every other name is left out,
    not copied through. *)
Theorem upgradeDependencies_exactly_upgradeable
    currentDependencies latestVersions name declaration :
  upgradeDependencies currentDependencies latestVersions !! name = Some declaration
  <-> exists current,
        currentDependencies !! name = Some current
        /\ isUpgradeable current (latestVersions !! name) = true
        /\ declaration
           = upgradeDependencyDeclaration current (latestVersions !! name).
Proof.
  rewrite upgradeDependencies_lookup_eq.
  destruct (currentDependencies !! name) as [current|].
  - destruct (isUpgradeable current (latestVersions !! name)) eqn:E; split.
    + intros [= <-]. eauto.
    + intros (? & [= <-] & _ & ->). reflexivity.
    + discriminate.
    + intros (? & [= <-] & ? & _). congruence.
  - split; [discriminate | intros (? & ? & _); discriminate].
Qed.

End VersionManagerProperties.

(** C8, an instance: the declaration [">="] against ["1.0.0"]. *)
Lemma constraint_only_unchanged_witness :
  upgradeDependencyDeclaration (js ">=") (Some (js "1.0.0")) = js ">="
  /\ @isUpgradeable exactSemver (js ">=") (Some (js "1.0.0")) = false.
Proof.
  apply (@constraint_only_unchanged exactSemver (js ">=") (js "1.0.0")).
  - reflexivity.
  - discriminate.
Defined.

(** *** When the semver calls raise *)

(** Over predicates that return, the two definitions of [isUpgradeable]
    and of [upgradeDependencies] agree. *)
Lemma isUpgradeable_returning (S : Semver) current latest :
  @Raising.isUpgradeable (returning S) current latest
  = Some (@isUpgradeable S current latest).
Proof.
  unfold Raising.isUpgradeable, isUpgradeable. simpl.
  destruct (negb (validRange current)); [reflexivity|].
  destruct (drop _ current); reflexivity.
Qed.

Lemma upgradeDependencies_returning (S : Semver) currentDependencies latestVersions :
  @Raising.upgradeDependencies (returning S) currentDependencies latestVersions
  = Some (@upgradeDependencies S currentDependencies latestVersions).
Proof.
  unfold Raising.upgradeDependencies, upgradeDependencies. cbv zeta.
  destruct (decide _) as [_|Hno].
  - f_equal. f_equal. apply map_filter_ext. intros name p _. simpl.
    rewrite isUpgradeable_returning. split; congruence.
  - exfalso. apply Hno. intros name p _. simpl.
    rewrite isUpgradeable_returning. eauto.
Qed.

Section RaisingProperties.
Context `{Raising.Semver}.

(** A valid range with something after its constraint prefix reaches the
    call of [semver.ltr]. *)
Lemma isUpgradeable_raises current :
  Raising.validRange current = true -> body current <> [] ->
  Raising.ltr None (body current) = None ->
  Raising.isUpgradeable current None = None.
Proof.
  intros Hv Hb Hr. unfold Raising.isUpgradeable. fold (body current).
  rewrite Hv. simpl. destruct (body current) as [|c r]; [congruence|].
  rewrite Hr. destruct (Raising.satisfies None (c :: r)); reflexivity.
Qed.

(** When [upgradeDependencies] returns, every call of [isUpgradeable]
    returned, and the result is the one of the chain, name by name. *)
Lemma upgradeDependencies_returned currentDependencies latestVersions result name :
  Raising.upgradeDependencies currentDependencies latestVersions = Some result ->
  (forall current, currentDependencies !! name = Some current ->
     is_Some (Raising.isUpgradeable current (latestVersions !! name)))
  /\ result !! name
     = match currentDependencies !! name with
       | Some current =>
           match Raising.isUpgradeable current (latestVersions !! name) with
           | Some true =>
               Some (upgradeDependencyDeclaration current (latestVersions !! name))
           | _ => None
           end
       | None => None
       end.
Proof.
  unfold Raising.upgradeDependencies. cbv zeta.
  destruct (decide _) as [Hall|]; [|discriminate]. intros [= <-]. split.
  - intros current Hc.
    pose proof (Hall name (current, latestVersions !! name)) as Hname.
    simpl in Hname. apply Hname.
    rewrite map_lookup_imap, Hc. reflexivity.
  - rewrite lookup_fmap, map_lookup_filter, map_lookup_imap.
    destruct (currentDependencies !! name) as [current|]; simpl; [|reflexivity].
    case_guard as Hg; simpl in *.
    + rewrite Hg. reflexivity.
    + destruct (Raising.isUpgradeable current (latestVersions !! name)) as [[|]|];
        [congruence|reflexivity..].
Qed.

(** With a [semver.ltr] that raises on an absent version, every name of a
    returned result has a latest version. *)
Lemma upgradeDependencies_returned_names_have_latest
    currentDependencies latestVersions result name declaration :
  (forall range, Raising.ltr None range = None) ->
  Raising.upgradeDependencies currentDependencies latestVersions = Some result ->
  result !! name = Some declaration ->
  is_Some (latestVersions !! name).
Proof.
  intros Hr E. destruct (upgradeDependencies_returned _ _ _ name E) as [_ ->].
  destruct (currentDependencies !! name) as [current|]; [|discriminate].
  destruct (latestVersions !! name) as [latest|]; [eauto|].
  unfold Raising.isUpgradeable. fold (body current).
  destruct (negb (Raising.validRange current)); [discriminate|].
  destruct (body current) as [|c r]; [discriminate|].
  rewrite Hr. destruct (Raising.satisfies None (c :: r)); discriminate.
Qed.

(** C5. A name of [currentDependencies] that [latestVersions] lacks is not
    left out of the result: [upgradeDependencies] hands [undefined] to
    [isUpgradeable], which has no guard for it (as
    [upgradeDependencyDeclaration] has), and once the declaration is a
    valid range with something after its constraint prefix the call of
    [semver.ltr] on the absent version is reached.  Where that call raises,
    as the package's does, [upgradeDependencies] raises: there is no
    result for any of the names. *)
Theorem upgradeDependencies_raises_without_latest
    currentDependencies latestVersions name current :
  currentDependencies !! name = Some current ->
  latestVersions !! name = None ->
  Raising.validRange current = true ->
  body current <> [] ->
  Raising.ltr None (body current) = None ->
  Raising.upgradeDependencies currentDependencies latestVersions = None.
Proof.
  intros Hc Hl Hv Hb Hr.
  destruct (Raising.upgradeDependencies currentDependencies latestVersions)
    as [result|] eqn:E; [|reflexivity].
  destruct (upgradeDependencies_returned _ _ _ name E) as [Hreturns _].
  destruct (Hreturns current Hc) as [answer Ha].
  rewrite Hl, isUpgradeable_raises in Ha by assumption. discriminate.
Qed.

End RaisingProperties.

(** C5, an instance: the declaration ["3.0.0"] of [c] and no latest
    version at all. *)
Lemma upgradeDependencies_raises_without_latest_witness :
  @Raising.upgradeDependencies exactRaisingSemver {[ js "c" := js "3.0.0" ]} ∅
  = None.
Proof.
  apply (@upgradeDependencies_raises_without_latest exactRaisingSemver
           {[ js "c" := js "3.0.0" ]} ∅ (js "c") (js "3.0.0")).
  - vm_compute. reflexivity.
  - vm_compute. reflexivity.
  - vm_compute. reflexivity.
  - vm_compute. discriminate.
  - vm_compute. reflexivity.
Defined.

(** ** The manifest patcher *)

(** *** The pattern of an entry *)

Lemma isSyntaxChar_escaped c : isSyntaxChar c = true -> isEscapedChar c = true.
Proof.
  unfold isSyntaxChar, isEscapedChar. rewrite !bool_decide_eq_true.
  unfold js. simpl. rewrite !elem_of_cons.
  intros Hc. repeat (destruct Hc as [->|Hc]; [tauto|]).
  apply elem_of_nil in Hc. contradiction.
Qed.

Lemma tokens_literal c rest :
  isSyntaxChar c = false ->
  tokens (c :: rest) = (TClass (CLit c) ::.) <$> tokens rest.
Proof.
  intros Hc. simpl.
  rewrite !bool_decide_false; [rewrite Hc; reflexivity|..];
    intros ->; discriminate.
Qed.

Lemma tokens_plain p rest :
  plainName p -> tokens (p ++ rest) = (litTokens p ++.) <$> tokens rest.
Proof.
  induction 1 as [|c p Hc _ IH]; simpl app.
  - destruct (tokens rest); reflexivity.
  - rewrite tokens_literal, IH by assumption.
    destruct (tokens rest); reflexivity.
Qed.

Lemma tokens_escaped c rest :
  isEscapedChar c = true ->
  tokens (backslash :: c :: rest) = (TClass (CLit c) ::.) <$> tokens rest.
Proof.
  intros Hc. simpl.
  rewrite bool_decide_false by (intros ->; discriminate).
  rewrite Hc. reflexivity.
Qed.

Lemma tokens_escapeRegexp s rest :
  tokens (escapeRegexp s ++ rest) = (litTokens s ++.) <$> tokens rest.
Proof.
  induction s as [|c s IH]; simpl.
  - destruct (tokens rest); reflexivity.
  - destruct (isEscapedChar c) eqn:Hc.
    + change ((backslash :: [c]) ++ escapeRegexp s) with (backslash :: c :: escapeRegexp s).
      simpl app. rewrite tokens_escaped, IH by assumption.
      destruct (tokens rest); reflexivity.
    + simpl app. rewrite tokens_literal, IH.
      * destruct (tokens rest); reflexivity.
      * destruct (isSyntaxChar c) eqn:Hs; [|reflexivity].
        apply isSyntaxChar_escaped in Hs. congruence.
Qed.

Lemma items_literals l ts :
  ~ startsWithStar ts -> items (litTokens l ++ ts) = (lits l ++.) <$> items ts.
Proof.
  intros Hts. induction l as [|c l IH]; simpl.
  - destruct (items ts); reflexivity.
  - destruct (litTokens l ++ ts) as [|[k|] r] eqn:E.
    + rewrite IH. destruct l; [|discriminate]. simpl in E. subst ts. reflexivity.
    + rewrite IH. destruct (items ts); reflexivity.
    + destruct l; [|discriminate]. simpl in E. subst ts. simpl in Hts. tauto.
Qed.

Lemma items_middle ts :
  items (TClass CSpace :: TStar :: TClass (CLit colon) :: TClass CSpace :: TStar :: ts)
  = (fun r => Star CSpace :: One (CLit colon) :: Star CSpace :: r) <$> items ts.
Proof. simpl. destruct (items ts); reflexivity. Qed.

Lemma compile_patternSource dependency oldDeclaration :
  plainName dependency ->
  compile (patternSource dependency oldDeclaration)
  = Some (entryPattern dependency oldDeclaration).
Proof.
  intros Hplain.
  assert (Hq : plainName ([dquote] ++ dependency ++ [dquote])).
  { apply Forall_app. split; [repeat constructor|].
    apply Forall_app. split; [assumption|repeat constructor]. }
  assert (E : patternSource dependency oldDeclaration
              = ([dquote] ++ dependency ++ [dquote])
                  ++ js "\s*:\s*"
                  ++ dquote :: escapeRegexp (oldDeclaration ++ [dquote]) ++ []).
  { unfold patternSource. rewrite app_nil_r, <- !app_assoc. reflexivity. }
  assert (Hmid : forall rest,
    tokens (js "\s*:\s*" ++ rest)
    = ([TClass CSpace; TStar; TClass (CLit colon); TClass CSpace; TStar] ++.)
        <$> tokens rest).
  { intros rest. cbn. destruct (tokens rest); reflexivity. }
  unfold compile. rewrite E, tokens_plain, Hmid by assumption.
  rewrite tokens_literal by reflexivity.
  rewrite tokens_escapeRegexp. cbn [tokens fmap option_fmap option_map mbind option_bind].
  unfold entryPattern.
  rewrite items_literals by (simpl; tauto).
  cbn [app]. rewrite items_middle.
  change (TClass (CLit dquote) :: litTokens (oldDeclaration ++ [dquote]) ++ [])
    with (litTokens (dquote :: oldDeclaration ++ [dquote]) ++ []).
  rewrite items_literals by (simpl; tauto).
  simpl. rewrite app_nil_r. reflexivity.
Qed.

(** *** Matching the pattern of an entry *)

Lemma matchItems_star k its s :
  matchItems (Star k :: its) s
  = match s with
    | c :: s' =>
        if classMatches k c then
          match matchItems (Star k :: its) s' with
          | Some n => Some (S n)
          | None => matchItems its s
          end
        else matchItems its s
    | [] => matchItems its s
    end.
Proof. destruct s; reflexivity. Qed.

Lemma stripPrefix_Some l s rest : stripPrefix l s = Some rest <-> s = l ++ rest.
Proof.
  revert s. induction l as [|x l IH]; intros s; simpl.
  - split; [intros [= ->]; reflexivity | intros ->; reflexivity].
  - destruct s as [|y s]; [split; discriminate|].
    case_bool_decide as E.
    + subst y. rewrite IH. split; [intros ->; reflexivity | intros [= ->]; reflexivity].
    + split; [discriminate | intros [= -> _]; congruence].
Qed.

Lemma stripPrefix_app l rest : stripPrefix l (l ++ rest) = Some rest.
Proof. apply stripPrefix_Some. reflexivity. Qed.

Lemma matchItems_lits l its s :
  matchItems (lits l ++ its) s
  = rest ← stripPrefix l s; (fun n => length l + n)%nat <$> matchItems its rest.
Proof.
  revert s. induction l as [|x l IH]; intros s; simpl.
  - destruct (matchItems its s); reflexivity.
  - destruct s as [|y s]; [reflexivity|].
    case_bool_decide; [|reflexivity].
    rewrite IH. destruct (stripPrefix l s) as [rest|]; [|reflexivity].
    simpl. destruct (matchItems its rest); reflexivity.
Qed.

Lemma spaceRun_app ws c rest :
  Forall (fun x => isWhiteSpaceChar x = true) ws ->
  isWhiteSpaceChar c = false ->
  spaceRun (ws ++ c :: rest) = length ws.
Proof.
  intros Hws Hc. induction Hws as [|x ws Hx _ IH]; simpl.
  - rewrite Hc. reflexivity.
  - rewrite Hx, IH. reflexivity.
Qed.

Lemma spaceRun_take s :
  Forall (fun x => isWhiteSpaceChar x = true) (take (spaceRun s) s).
Proof.
  induction s as [|c s IH]; simpl; [constructor|].
  destruct (isWhiteSpaceChar c) eqn:E; simpl; constructor; assumption.
Qed.

Lemma spaceRun_le s : (spaceRun s <= length s)%nat.
Proof.
  induction s as [|c s IH]; simpl; [lia|].
  destruct (isWhiteSpaceChar c); simpl; lia.
Qed.

(** A run of white space before a character that is not white space: the
    starred class takes the whole run, and giving characters back cannot
    help. *)
Lemma matchItems_spaces c its s :
  isWhiteSpaceChar c = false ->
  matchItems (Star CSpace :: lits [c] ++ its) s
  = (fun n => spaceRun s + n)%nat
      <$> matchItems (lits [c] ++ its) (drop (spaceRun s) s).
Proof.
  intros Hc. induction s as [|x s IH].
  - reflexivity.
  - rewrite matchItems_star. cbn [classMatches spaceRun].
    destruct (isWhiteSpaceChar x) eqn:Hx.
    + rewrite IH. cbn [drop].
      destruct (matchItems (lits [c] ++ its) (drop (spaceRun s) s)) as [n|];
        [reflexivity|].
      simpl. rewrite bool_decide_false; [reflexivity|]. congruence.
    + cbn [drop]. destruct (matchItems (lits [c] ++ its) (x :: s)); reflexivity.
Qed.

Lemma Occurrence_not_nil dependency oldDeclaration m :
  Occurrence dependency oldDeclaration m -> m <> [].
Proof. intros (ws1 & ws2 & _ & _ & ->). discriminate. Qed.

Lemma matchItems_entryPattern dependency oldDeclaration s :
  matchItems (entryPattern dependency oldDeclaration) s
  = r1 ← stripPrefix ([dquote] ++ dependency ++ [dquote]) s;
    r2 ← stripPrefix [colon] (drop (spaceRun r1) r1);
    r3 ← stripPrefix (dquote :: oldDeclaration ++ [dquote]) (drop (spaceRun r2) r2);
    Some (length ([dquote] ++ dependency ++ [dquote]) + (spaceRun r1
          + (1 + (spaceRun r2
                  + length (dquote :: oldDeclaration ++ [dquote])))))%nat.
Proof.
  unfold entryPattern.
  rewrite matchItems_lits.
  destruct (stripPrefix _ s) as [r1|]; [|reflexivity]. cbn [mbind option_bind].
  change (Star CSpace :: One (CLit colon) :: Star CSpace
            :: lits (dquote :: oldDeclaration ++ [dquote]))
    with (Star CSpace :: lits [colon]
            ++ Star CSpace :: lits [dquote] ++ lits (oldDeclaration ++ [dquote])).
  rewrite matchItems_spaces by reflexivity.
  rewrite matchItems_lits.
  destruct (stripPrefix [colon] _) as [r2|]; [|reflexivity]. cbn [mbind option_bind].
  rewrite matchItems_spaces by reflexivity.
  change (lits [dquote] ++ lits (oldDeclaration ++ [dquote]))
    with (lits (dquote :: oldDeclaration ++ [dquote])).
  rewrite <- (app_nil_r (lits _)), matchItems_lits.
  destruct (stripPrefix (dquote :: _) _) as [r3|]; [|reflexivity].
  cbn [mbind option_bind fmap option_fmap option_map matchItems].
  apply (f_equal Some). cbn [length]. lia.
Qed.

Lemma matchItems_occurrence dependency oldDeclaration s n :
  matchItems (entryPattern dependency oldDeclaration) s = Some n
  <-> exists m rest,
        s = m ++ rest /\ Occurrence dependency oldDeclaration m /\ length m = n.
Proof.
  rewrite matchItems_entryPattern. unfold Occurrence.
  remember ([dquote] ++ dependency ++ [dquote]) as q1 eqn:Eq1.
  remember (dquote :: oldDeclaration ++ [dquote]) as q2 eqn:Eq2.
  split.
  - destruct (stripPrefix q1 s) as [r1|] eqn:E1; [|discriminate].
    cbn [mbind option_bind].
    destruct (stripPrefix [colon] _) as [r2|] eqn:E2; [|discriminate].
    cbn [mbind option_bind].
    destruct (stripPrefix q2 _) as [r3|] eqn:E3; [|discriminate].
    cbn [mbind option_bind]. intros [= <-].
    apply stripPrefix_Some in E1, E2, E3.
    exists (q1 ++ take (spaceRun r1) r1 ++ [colon] ++ take (spaceRun r2) r2 ++ q2), r3.
    split; [|split].
    + rewrite E1. rewrite <- (take_drop (spaceRun r1) r1) at 1.
      rewrite E2. rewrite <- (take_drop (spaceRun r2) r2) at 1.
      rewrite E3. rewrite <- !app_assoc. reflexivity.
    + exists (take (spaceRun r1) r1), (take (spaceRun r2) r2).
      split; [apply spaceRun_take|]. split; [apply spaceRun_take|reflexivity].
    + pose proof (spaceRun_le r1). pose proof (spaceRun_le r2).
      rewrite !length_app, !length_take. cbn [length]. lia.
  - intros (m & rest & -> & (ws1 & ws2 & H1 & H2 & ->) & <-).
    rewrite <- !app_assoc.
    rewrite stripPrefix_app. cbn [mbind option_bind].
    change ([colon] ++ ws2 ++ q2 ++ rest) with (colon :: ws2 ++ q2 ++ rest).
    rewrite (spaceRun_app ws1 colon), drop_app_length by (assumption || reflexivity).
    change (colon :: ws2 ++ q2 ++ rest) with ([colon] ++ ws2 ++ q2 ++ rest).
    rewrite stripPrefix_app. cbn [mbind option_bind].
    assert (Hrun : spaceRun (ws2 ++ q2 ++ rest) = length ws2).
    { rewrite Eq2. apply (spaceRun_app ws2 dquote); [assumption|reflexivity]. }
    rewrite Hrun, drop_app_length, stripPrefix_app. cbn [mbind option_bind].
    apply (f_equal Some). rewrite !length_app. cbn [length]. lia.
Qed.

(** *** Global replacement *)

Lemma expand_plain template matched before after :
  dollar ∉ template -> expand template matched before after = template.
Proof.
  induction template as [|c t IH]; [reflexivity|].
  rewrite not_elem_of_cons. intros [Hc Ht]. simpl.
  rewrite bool_decide_false by congruence. rewrite IH by assumption. reflexivity.
Qed.

Lemma replaceFrom_skip its template whole k :
  forall pos s, (k <= length s)%nat ->
    replaceFrom its template whole pos k s
    = replaceFrom its template whole (pos + k) 0 (drop k s).
Proof.
  induction k as [|k IH]; intros pos s Hk.
  - rewrite Nat.add_0_r. reflexivity.
  - destruct s as [|c s]; [simpl in Hk; lia|].
    simpl in Hk. cbn [replaceFrom drop].
    rewrite IH by lia. f_equal. lia.
Qed.

Lemma replaceFrom_miss its template whole pos c s :
  matchItems its (c :: s) = None ->
  replaceFrom its template whole pos 0 (c :: s)
  = c :: replaceFrom its template whole (S pos) 0 s.
Proof. intros E. cbn [replaceFrom]. rewrite E. reflexivity. Qed.

Lemma replaceFrom_hit its template whole pos s k :
  matchItems its s = Some (S k) -> (S k <= length s)%nat ->
  replaceFrom its template whole pos 0 s
  = expand template (take (S k) s) (take pos whole) (drop (pos + S k) whole)
      ++ replaceFrom its template whole (pos + S k) 0 (drop (S k) s).
Proof.
  intros E Hk. destruct s as [|c s]; [simpl in Hk; lia|].
  cbn [replaceFrom]. rewrite E. f_equal.
  simpl in Hk. rewrite replaceFrom_skip by lia.
  cbn [drop]. f_equal. lia.
Qed.

Section Replacement.

Variable its : list item.
Variable P : jsstring -> Prop.
Variable template : jsstring.

Hypothesis matches_P :
  forall s n,
    matchItems its s = Some n
    <-> exists m rest, s = m ++ rest /\ P m /\ length m = n.
Hypothesis P_not_nil : forall m, P m -> m <> [].
Hypothesis template_plain : dollar ∉ template.

Lemma no_occurrence_at_miss s pre m post :
  matchItems its s = None -> s = pre ++ m ++ post -> P m -> pre <> [].
Proof.
  intros Hmiss -> Hm ->.
  assert (E : matchItems its ([] ++ m ++ post) = Some (length m)).
  { apply matches_P. exists m, post. auto. }
  rewrite E in Hmiss. discriminate.
Qed.

Lemma Rewritten_cons c s out :
  matchItems its (c :: s) = None ->
  Rewritten P template s out ->
  Rewritten P template (c :: s) (c :: out).
Proof.
  intros Hmiss Hrw. inversion Hrw as [s0 Hnone|pre m post out0 Hm Hleft Hrest]; subst.
  - apply Rewritten_none. intros pre m post E Hm.
    pose proof (no_occurrence_at_miss _ _ _ _ Hmiss E Hm) as Hpre.
    destruct pre as [|c' pre]; [congruence|].
    injection E as -> E. exact (Hnone _ _ _ E Hm).
  - change (c :: pre ++ m ++ post) with ((c :: pre) ++ m ++ post).
    change (c :: pre ++ template ++ out0) with ((c :: pre) ++ template ++ out0).
    apply Rewritten_first; [assumption| |assumption].
    intros pre' m' post' E Hm'.
    pose proof (no_occurrence_at_miss _ _ _ _ Hmiss E Hm') as Hpre.
    destruct pre' as [|c' pre']; [congruence|].
    injection E as -> E. pose proof (Hleft _ _ _ E Hm'). simpl. lia.
Qed.

Lemma replaceFrom_Rewritten whole :
  forall s pos, Rewritten P template s (replaceFrom its template whole pos 0 s).
Proof.
  intros s. remember (length s) as len eqn:Hlen.
  revert s Hlen. induction len as [len IH] using lt_wf_ind. intros s Hlen pos.
  destruct (matchItems its s) as [n|] eqn:E.
  - pose proof E as E'. apply matches_P in E' as (m & rest & -> & Hm & <-).
    pose proof (P_not_nil m Hm) as Hne.
    destruct (length m) as [|k] eqn:Hk; [destruct m; [congruence|discriminate]|].
    rewrite (replaceFrom_hit _ _ _ _ _ k); [|exact E|rewrite length_app; lia].
    rewrite expand_plain by assumption.
    rewrite <- Hk, drop_app_length.
    apply (Rewritten_first P template [] m rest); [assumption| |].
    + intros. simpl. lia.
    + apply (IH (length rest)); [|reflexivity].
      subst len. rewrite length_app. lia.
  - destruct s as [|c s].
    + cbn [replaceFrom]. rewrite E. apply Rewritten_none.
      intros pre m post Hs Hm. symmetry in Hs.
      apply app_eq_nil in Hs as [_ Hs]. apply app_eq_nil in Hs as [Hs _].
      exact (P_not_nil m Hm Hs).
    + rewrite replaceFrom_miss by assumption.
      apply Rewritten_cons; [assumption|].
      apply (IH (length s)); [subst len; simpl; lia | reflexivity].
Qed.

(** The occurrence at a position has one length only, so [Rewritten] fixes
    the result. *)
Lemma P_same_length m1 r1 m2 r2 :
  m1 ++ r1 = m2 ++ r2 -> P m1 -> P m2 -> m1 = m2.
Proof.
  intros E H1 H2.
  assert (E1 : matchItems its (m1 ++ r1) = Some (length m1)).
  { apply matches_P. exists m1, r1. auto. }
  assert (E2 : matchItems its (m1 ++ r1) = Some (length m2)).
  { apply matches_P. exists m2, r2. auto. }
  rewrite E1 in E2. injection E2 as Hl.
  apply (app_inj_1 _ _ _ _ Hl E).
Qed.

Lemma Rewritten_functional s out1 out2 :
  Rewritten P template s out1 -> Rewritten P template s out2 -> out1 = out2.
Proof.
  intros H1. revert out2.
  induction H1 as [s Hnone|pre m post out Hm Hleft Hrest IH]; intros out2 H2.
  - inversion H2 as [|pre m post out Hm _ _ E]; subst; [reflexivity|].
    exfalso. exact (Hnone _ _ _ eq_refl Hm).
  - inversion H2 as [s0 Hnone|pre' m' post' out' Hm' Hleft' Hrest' E]; subst.
    + exfalso. exact (Hnone _ _ _ eq_refl Hm).
    + assert (Hl : length pre' = length pre).
      { pose proof (Hleft _ _ _ (eq_sym E) Hm').
        pose proof (Hleft' _ _ _ E Hm). lia. }
      destruct (app_inj_1 _ _ _ _ Hl E) as [-> E'].
      pose proof (P_same_length _ _ _ _ E' Hm' Hm) as ->.
      apply app_inv_head in E'. subst post'.
      rewrite (IH _ Hrest'). reflexivity.
Qed.

Lemma replaceGlobal_spec data out :
  replaceGlobal its template data = out <-> Rewritten P template data out.
Proof.
  unfold replaceGlobal. split.
  - intros <-. apply replaceFrom_Rewritten.
  - intros Hrw. apply (Rewritten_functional data); [|assumption].
    apply replaceFrom_Rewritten.
Qed.

End Replacement.

(** *** The patcher *)

Lemma Rewritten_unchanged P r s out :
  (forall pre m post, s = pre ++ m ++ post -> ~ P m) ->
  Rewritten P r s out -> out = s.
Proof.
  intros Hnone Hrw. inversion Hrw as [|pre m post out0 Hm _ _]; subst;
    [reflexivity|].
  exfalso. exact (Hnone _ _ _ eq_refl Hm).
Qed.

Lemma plainName_no_dollar dependency : plainName dependency -> dollar ∉ dependency.
Proof.
  intros Hplain Hin. unfold plainName in Hplain.
  rewrite Forall_forall in Hplain. specialize (Hplain dollar Hin). discriminate.
Qed.

Lemma replacementFor_plain dependency newDeclaration :
  plainName dependency -> dollar ∉ newDeclaration ->
  dollar ∉ replacementFor dependency newDeclaration.
Proof.
  intros Hd Hn Hin. apply plainName_no_dollar in Hd.
  unfold replacementFor, js in Hin. simpl in Hin.
  repeat rewrite ?elem_of_cons, ?elem_of_app, ?elem_of_nil in Hin.
  decompose [or] Hin; try discriminate; contradiction.
Qed.

Lemma updateEntry_spec oldDependencies data dependency newDeclaration :
  plainName dependency -> dollar ∉ newDeclaration ->
  exists data',
    updateEntry oldDependencies data (dependency, newDeclaration) = Some data'
    /\ forall out,
        Rewritten
          (Occurrence dependency (toStringValue (oldDependencies !! dependency)))
          (replacementFor dependency newDeclaration) data out
        <-> out = data'.
Proof.
  intros Hd Hn. unfold updateEntry.
  rewrite compile_patternSource by assumption. cbn [mbind option_bind].
  eexists. split; [reflexivity|]. intros out.
  set (oldDeclaration := toStringValue (oldDependencies !! dependency)).
  pose proof (replaceGlobal_spec
                (entryPattern dependency oldDeclaration)
                (Occurrence dependency oldDeclaration)
                (replacementFor dependency newDeclaration)
                (matchItems_occurrence dependency oldDeclaration)
                (Occurrence_not_nil dependency oldDeclaration)
                (replacementFor_plain _ _ Hd Hn) data out) as Hspec.
  rewrite <- Hspec. split; congruence.
Qed.

(** C9 (amended). For entries whose names hold no pattern syntax and whose
    new declarations hold no [$], [updatePackageData] patches the entries in
    turn: each replaces, from left to right, every occurrence of the
    quoted name, a colon with any white space before and after it, and the
    quoted old declaration (taken literally) by the quoted name, a colon,
    one space and the quoted new declaration, and leaves the rest of the
    text as it is; the result is the only text so obtained.  An entry with
    no occurrence leaves the text unmodified ([Rewritten_unchanged]). *)
Theorem updatePackageData_patches data oldDependencies newDependencies :
  Forall (fun entry => plainName entry.1 /\ dollar ∉ entry.2) newDependencies ->
  exists out,
    updatePackageData data oldDependencies newDependencies = Some out
    /\ forall out', Patched oldDependencies newDependencies data out' <-> out' = out.
Proof.
  intros Hall. revert data.
  induction Hall as [|[dependency newDeclaration] rest [Hd Hn] _ IH]; intros data.
  - exists data. split; [reflexivity|]. intros out'. split.
    + inversion 1. reflexivity.
    + intros ->. constructor.
  - destruct (updateEntry_spec oldDependencies data dependency newDeclaration Hd Hn)
      as (data' & E & Hstep).
    destruct (IH data') as (out & Eout & Hout).
    exists out. cbn [updatePackageData]. rewrite E. cbn [mbind option_bind].
    split; [exact Eout|]. intros out'. split.
    + inversion 1 as [|? ? ? ? d1 ? Hrw Hrest]; subst.
      apply Hstep in Hrw. subst d1. apply Hout. assumption.
    + intros ->. apply (Patched_cons _ _ _ _ _ data').
      * apply Hstep. reflexivity.
      * apply Hout. reflexivity.
Qed.

(** C9 (amended), an instance: two entries, the second written with a
    space before the colon and none after it. *)
Lemma updatePackageData_patches_witness :
  exists out,
    updatePackageData
      (quoted (js "a") ++ js ": " ++ quoted (js "1.0.0") ++ js ", "
         ++ quoted (js "b") ++ js " :" ++ quoted (js "^2.0.0"))
      {[ js "a" := js "1.0.0"; js "b" := js "^2.0.0" ]}
      [(js "a", js "1.0.1"); (js "b", js "^3.1.0")]
    = Some out
    /\ forall out',
        Patched {[ js "a" := js "1.0.0"; js "b" := js "^2.0.0" ]}
                [(js "a", js "1.0.1"); (js "b", js "^3.1.0")]
                (quoted (js "a") ++ js ": " ++ quoted (js "1.0.0") ++ js ", "
                   ++ quoted (js "b") ++ js " :" ++ quoted (js "^2.0.0"))
                out'
        <-> out' = out.
Proof.
  apply (updatePackageData_patches
           (quoted (js "a") ++ js ": " ++ quoted (js "1.0.0") ++ js ", "
              ++ quoted (js "b") ++ js " :" ++ quoted (js "^2.0.0"))
           {[ js "a" := js "1.0.0"; js "b" := js "^2.0.0" ]}
           [(js "a", js "1.0.1"); (js "b", js "^3.1.0")]).
  repeat constructor;
    apply (bool_decide_unpack _); vm_compute; exact I.
Defined.

Example updatePackageData_two_entries :
  updatePackageData
    (quoted (js "a") ++ js ": " ++ quoted (js "1.0.0") ++ js ", "
       ++ quoted (js "b") ++ js " :" ++ quoted (js "^2.0.0"))
    {[ js "a" := js "1.0.0"; js "b" := js "^2.0.0" ]}
    [(js "a", js "1.0.1"); (js "b", js "^3.1.0")]
  = Some (quoted (js "a") ++ js ": " ++ quoted (js "1.0.1") ++ js ", "
            ++ quoted (js "b") ++ js ": " ++ quoted (js "^3.1.0")).
Proof. vm_compute. reflexivity. Qed.

(** C9, as stated, fails: the manifest below has no space after the colon,
    so the literal text with a colon and one space does not occur in
    it, and yet the entry is patched (and the space put in). *)
Lemma updatePackageData_patches_without_space :
  (forall pre post,
      quoted (js "a") ++ js ":" ++ quoted (js "1.0.0")
      <> pre ++ (quoted (js "a") ++ js ": " ++ quoted (js "1.0.0")) ++ post)
  /\ updatePackageData (quoted (js "a") ++ js ":" ++ quoted (js "1.0.0"))
       {[ js "a" := js "1.0.0" ]} [(js "a", js "1.0.1")]
     = Some (quoted (js "a") ++ js ": " ++ quoted (js "1.0.1"))
  /\ ~ (forall (data : jsstring) (oldDependencies : gmap jsstring jsstring)
               (dependency oldDeclaration newDeclaration out : jsstring),
           oldDependencies !! dependency = Some oldDeclaration ->
           updatePackageData data oldDependencies [(dependency, newDeclaration)]
           = Some out ->
           (forall pre post,
               data <> pre ++ (quoted dependency ++ js ": " ++ quoted oldDeclaration)
                         ++ post) ->
           out = data).
Proof.
  assert (Hno : forall pre post,
             quoted (js "a") ++ js ":" ++ quoted (js "1.0.0")
             <> pre ++ (quoted (js "a") ++ js ": " ++ quoted (js "1.0.0")) ++ post).
  { intros pre post E. apply (f_equal length) in E.
    rewrite !length_app in E. simpl in E. lia. }
  assert (Hrun : updatePackageData (quoted (js "a") ++ js ":" ++ quoted (js "1.0.0"))
                   {[ js "a" := js "1.0.0" ]} [(js "a", js "1.0.1")]
                 = Some (quoted (js "a") ++ js ": " ++ quoted (js "1.0.1")))
    by (vm_compute; reflexivity).
  split; [exact Hno|]. split; [exact Hrun|].
  intros Hclaim.
  specialize (Hclaim _ {[ js "a" := js "1.0.0" ]} (js "a") (js "1.0.0") _ _
                eq_refl Hrun Hno).
  discriminate.
Qed.

(** The name is put in the pattern as it is: a dot in it stands for any
    character. *)
Example updatePackageData_dot_in_name :
  updatePackageData (quoted (js "aXb") ++ js ": " ++ quoted (js "1.0.0"))
    {[ js "a.b" := js "1.0.0" ]} [(js "a.b", js "1.0.1")]
  = Some (quoted (js "a.b") ++ js ": " ++ quoted (js "1.0.1")).
Proof. vm_compute. reflexivity. Qed.

(** * Further properties *)

(** ** The digit comparator *)

Lemma numGt_true a b :
  numGt a b = true -> exists x y, a = Some x /\ b = Some y /\ y < x.
Proof.
  destruct a as [x|], b as [y|]; simpl; try discriminate.
  intros Hlt. apply Z.ltb_lt in Hlt. eauto.
Qed.

Lemma parseInt_wild d : isWildDigit d = true -> parseInt d = None.
Proof.
  unfold isWildDigit. intros Hw. apply orb_prop in Hw as [E|E];
    apply bool_decide_eq_true in E; subst; reflexivity.
Qed.

Lemma versionDigitComparison_zero d1 d2 :
  versionDigitComparison d1 d2 = 0 ->
  d1 = d2 \/ isWildDigit d1 = true \/ isWildDigit d2 = true.
Proof.
  unfold versionDigitComparison.
  destruct (numGt _ _); [discriminate|].
  case_bool_decide as E; [auto|]. simpl.
  destruct (isWildDigit d1); [auto|]. destruct (isWildDigit d2); [auto|].
  discriminate.
Qed.

(** X1. The comparator answers EQUAL exactly when the two tokens are the
    same text or one of them is a wildcard marker. *)
Theorem versionDigitComparison_equal_iff d1 d2 :
  versionDigitComparison d1 d2 = 0
  <-> d1 = d2 \/ isWildDigit d1 = true \/ isWildDigit d2 = true.
Proof.
  split; [apply versionDigitComparison_zero|].
  intros [->|Hw]; [apply versionDigitComparison_same|].
  apply versionDigitComparison_wild. assumption.
Qed.

(** X2. When a token compares GREATER than another, the other compares
    LESS than it. *)
Theorem versionDigitComparison_greater_then_less d1 d2 :
  versionDigitComparison d1 d2 = 1 -> versionDigitComparison d2 d1 = -1.
Proof.
  unfold versionDigitComparison at 1.
  destruct (numGt (parseInt d1) (parseInt d2)) eqn:Hgt.
  - intros _. apply numGt_true in Hgt as (x & y & E1 & E2 & Hlt).
    apply versionDigitComparison_otherwise.
    + rewrite E1, E2. simpl. apply Z.ltb_ge. lia.
    + intros ->. rewrite E1 in E2. injection E2 as ->. lia.
    + destruct (isWildDigit d2) eqn:Hw; [|reflexivity].
      rewrite (parseInt_wild _ Hw) in E2. discriminate.
    + destruct (isWildDigit d1) eqn:Hw; [|reflexivity].
      rewrite (parseInt_wild _ Hw) in E1. discriminate.
  - destruct (_ || _); discriminate.
Qed.

(** X2, an instance: ["10"] against ["9"]. *)
Lemma versionDigitComparison_greater_then_less_witness :
  versionDigitComparison (js "9") (js "10") = -1.
Proof.
  apply (versionDigitComparison_greater_then_less (js "10") (js "9")).
  reflexivity.
Defined.

(** ** The constraint extractor *)

(** X3. A declaration is its constraint prefix followed by its body; the
    prefix is all prefix and the body has none. *)
Theorem getVersionConstraints_round_trip d :
  getVersionConstraints d ++ body d = d
  /\ getVersionConstraints (getVersionConstraints d) = getVersionConstraints d
  /\ getVersionConstraints (body d) = [].
Proof.
  split; [symmetry; apply getVersionConstraints_split|]. split.
  - apply getVersionConstraints_fixed, getVersionConstraints_all.
  - pose proof (getVersionConstraints_rest d) as Hr. fold (body d) in Hr.
    destruct (body d) as [|c r]; [reflexivity|].
    apply getVersionConstraints_stop. assumption.
Qed.

(** ** The declaration upgrader *)

Lemma join_split sep s : join sep (split sep s) = s.
Proof.
  induction s as [|c s IH]; [reflexivity|]. simpl.
  destruct (split_cons_inv sep s) as (h & t & E). rewrite E in *.
  case_bool_decide as Hc.
  - subst c. change (join sep ([] :: h :: t)) with ([] ++ sep :: join sep (h :: t)).
    rewrite IH. reflexivity.
  - destruct t as [|h' t]; simpl in *; rewrite <- IH; reflexivity.
Qed.

Lemma proposeComponents_same cs : proposeComponents false cs cs = cs.
Proof.
  induction cs as [|c cs IH]; [reflexivity|]. simpl.
  rewrite versionDigitComparison_same. simpl.
  destruct (isWildDigit c); rewrite IH; reflexivity.
Qed.

(** X4. A declaration whose body is the target is returned as it is. *)
Theorem upgrade_at_target_unchanged d :
  upgradeDependencyDeclaration d (Some (body d)) = d.
Proof.
  destruct (body d) as [|t0 t] eqn:Hb; [reflexivity|].
  rewrite <- Hb.
  assert (Ht : body d <> []) by (rewrite Hb; discriminate).
  destruct (upgrade_cases d (body d) Ht) as [[E _]|(c & h & cs & _ & E & ->)];
    [congruence|].
  rewrite <- E, proposeComponents_same, join_split.
  symmetry. apply getVersionConstraints_split.
Qed.

(** X5. The result starts with the constraint prefix of the declaration,
    whatever the target; with a target that has no constraint prefix of
    its own, it is the whole constraint prefix of the result. *)
Theorem upgrade_keeps_constraints d latest :
  (exists rest,
      upgradeDependencyDeclaration d latest = getVersionConstraints d ++ rest)
  /\ (wellFormedTarget latest ->
      getVersionConstraints (upgradeDependencyDeclaration d latest)
      = getVersionConstraints d).
Proof.
  split; [|apply upgrade_keeps_prefix].
  destruct latest as [[|t0 t]|].
  - exists (body d). apply getVersionConstraints_split.
  - assert (Ht : t0 :: t <> []) by discriminate.
    destruct (upgrade_cases d (t0 :: t) Ht) as [[_ ->]|(c & h & cs & _ & _ & ->)].
    + exists []. rewrite app_nil_r. reflexivity.
    + eauto.
  - exists (body d). apply getVersionConstraints_split.
Qed.

(** X5, an instance: ["~1.2"] against ["2.0.0"]. *)
Lemma upgrade_keeps_constraints_witness :
  getVersionConstraints
    (upgradeDependencyDeclaration (js "~1.2") (Some (js "2.0.0")))
  = js "~".
Proof.
  apply (upgrade_keeps_constraints (js "~1.2") (Some (js "2.0.0"))).
  reflexivity.
Defined.

Lemma proposeComponents_plain_target b cs ls :
  Forall (fun l => isWildDigit l = false) ls ->
  proposeComponents b cs ls = zip_with keepWildcard cs ls.
Proof.
  intros Hls. revert b cs.
  induction Hls as [|l ls Hl _ IH]; intros b [|c cs]; try reflexivity.
  simpl. unfold keepWildcard at 1.
  destruct (isWildDigit c) eqn:Hw; [rewrite IH; reflexivity|].
  destruct (versionDigitComparison c l <? 0) eqn:Hlt; [rewrite IH; reflexivity|].
  destruct (0 <? versionDigitComparison c l) eqn:Hgt; simpl.
  - destruct b; simpl; rewrite IH; reflexivity.
  - destruct b; [rewrite IH; reflexivity|].
    assert (E : versionDigitComparison c l = 0).
    { apply Z.ltb_ge in Hlt, Hgt. lia. }
    apply versionDigitComparison_zero in E as [->|[E|E]]; [|congruence..].
    rewrite IH. reflexivity.
Qed.

(** X6. Against a non-empty target none of whose components is a wildcard
    marker, every component of the result of a declaration with a body is
    the declaration's component when that is a wildcard marker, and the
    target's component otherwise: the [versionBumped] flag and the order of
    the digits play no part. *)
Theorem upgrade_plain_target d t :
  body d <> [] -> t <> [] ->
  Forall (fun l => isWildDigit l = false) (split dot t) ->
  resultComponents d (Some t) = zip_with keepWildcard (components d) (split dot t).
Proof.
  intros Hb Ht Hplain.
  destruct (resultComponents_cases d t Ht) as [[E _]| ->].
  - exfalso. unfold components in E.
    destruct (body_components d) as [?|(c & h & cs & _ & E')]; [congruence|].
    rewrite E' in E. discriminate.
  - apply proposeComponents_plain_target. assumption.
Qed.

(** X6, an instance: ["^3.x.7"] against ["2.5.1"]. *)
Lemma upgrade_plain_target_witness :
  resultComponents (js "^3.x.7") (Some (js "2.5.1")) = [js "2"; js "x"; js "1"].
Proof.
  apply (upgrade_plain_target (js "^3.x.7") (js "2.5.1")).
  - discriminate.
  - discriminate.
  - repeat constructor.
Defined.

Lemma zip_with_keepWildcard_plain cs ls :
  Forall (fun c => isWildDigit c = false) cs ->
  zip_with keepWildcard cs ls = take (length cs) ls.
Proof.
  intros Hcs. revert ls. induction Hcs as [|c cs Hc _ IH]; intros [|l ls];
    try reflexivity.
  simpl. unfold keepWildcard at 1. rewrite Hc, IH. reflexivity.
Qed.

(** X7. A declaration with a body and without wildcard components is
    upgraded, against a non-empty target without wildcard components, to
    its constraint prefix followed by the target cut to the number of
    components of the declaration, whether the declaration is behind the
    target or ahead of it. *)
Theorem upgrade_without_wildcards d t :
  body d <> [] -> t <> [] ->
  Forall (fun c => isWildDigit c = false) (components d) ->
  Forall (fun l => isWildDigit l = false) (split dot t) ->
  upgradeDependencyDeclaration d (Some t)
  = getVersionConstraints d
      ++ join dot (take (length (components d)) (split dot t)).
Proof.
  intros Hb Ht Hd Hplain.
  destruct (upgrade_cases d t Ht) as [[E _]|(c & h & cs & _ & E & ->)];
    [congruence|].
  f_equal. f_equal. fold (components d) in E. rewrite <- E.
  rewrite proposeComponents_plain_target by assumption.
  apply zip_with_keepWildcard_plain. assumption.
Qed.

(** X7, an instance: [">=2.0.0"] against the older ["1.9"]. *)
Lemma upgrade_without_wildcards_witness :
  upgradeDependencyDeclaration (js ">=2.0.0") (Some (js "1.9")) = js ">=1.9".
Proof.
  apply (upgrade_without_wildcards (js ">=2.0.0") (js "1.9")).
  - discriminate.
  - discriminate.
  - repeat constructor.
  - repeat constructor.
Defined.

(** ** The dependency set upgrader *)

Section DependencySetProperties.
Context `{Semver}.

(** X8. Whatever the latest versions, the result of [upgradeDependencies]
    has names of [currentDependencies] only, and never one whose
    declaration is not a valid range or has nothing after its constraint
    prefix. *)
Theorem upgradeDependencies_never_invalid
    currentDependencies latestVersions name declaration :
  upgradeDependencies currentDependencies latestVersions !! name = Some declaration ->
  exists current,
    currentDependencies !! name = Some current
    /\ validRange current = true
    /\ body current <> [].
Proof.
  rewrite upgradeDependencies_lookup_eq.
  destruct (currentDependencies !! name) as [current|]; [|discriminate].
  unfold isUpgradeable. fold (body current).
  destruct (validRange current) eqn:Hvalid; simpl; [|intros [=]].
  destruct (body current) as [|c r] eqn:Hbody; simpl; [intros [=]|].
  intros _. exists current. rewrite Hbody. repeat split; [assumption|discriminate].
Qed.

(** X9. The result depends on the latest versions of the names of
    [currentDependencies] only. *)
Theorem upgradeDependencies_other_names_ignored
    currentDependencies latestVersions1 latestVersions2 :
  (forall name, is_Some (currentDependencies !! name) ->
                latestVersions1 !! name = latestVersions2 !! name) ->
  upgradeDependencies currentDependencies latestVersions1
  = upgradeDependencies currentDependencies latestVersions2.
Proof.
  intros Hsame. apply map_eq. intros name.
  rewrite !upgradeDependencies_lookup_eq.
  destruct (currentDependencies !! name) as [current|] eqn:E; [|reflexivity].
  rewrite (Hsame name) by (rewrite E; eauto). reflexivity.
Qed.

(** X10. Collections without a name in common are upgraded
    independently: the result for their union is the union of the
    results. *)
Theorem upgradeDependencies_union
    (currentDependencies1 currentDependencies2 latestVersions
       : gmap jsstring jsstring) :
  currentDependencies1 ##ₘ currentDependencies2 ->
  upgradeDependencies (currentDependencies1 ∪ currentDependencies2) latestVersions
  = upgradeDependencies currentDependencies1 latestVersions
      ∪ upgradeDependencies currentDependencies2 latestVersions.
Proof.
  intros Hdisj. apply map_eq. intros name.
  rewrite lookup_union, !upgradeDependencies_lookup_eq, lookup_union.
  pose proof (map_disjoint_spec currentDependencies1 currentDependencies2) as Hspec.
  destruct (currentDependencies1 !! name) as [c1|] eqn:E1;
    destruct (currentDependencies2 !! name) as [c2|] eqn:E2; simpl.
  - exfalso. exact (proj1 Hspec Hdisj name c1 c2 E1 E2).
  - destruct (isUpgradeable c1 _); reflexivity.
  - destruct (isUpgradeable c2 _); reflexivity.
  - reflexivity.
Qed.

End DependencySetProperties.

(** X9, an instance: a latest version of a package that is not a
    dependency. *)
Lemma upgradeDependencies_other_names_ignored_witness :
  @upgradeDependencies exactSemver {[ js "a" := js "1.0.0" ]}
    {[ js "a" := js "1.0.1"; js "b" := js "2.0.0" ]}
  = @upgradeDependencies exactSemver {[ js "a" := js "1.0.0" ]}
      {[ js "a" := js "1.0.1" ]}.
Proof.
  apply (@upgradeDependencies_other_names_ignored exactSemver).
  intros name [v Hv]. apply lookup_singleton_Some in Hv as [<- _].
  vm_compute. reflexivity.
Defined.

(** X8, an instance. *)
Lemma upgradeDependencies_never_invalid_witness :
  exists current,
    ({[ js "a" := js "1.0.0" ]} : gmap jsstring jsstring) !! js "a" = Some current
    /\ @validRange exactSemver current = true
    /\ body current <> [].
Proof.
  apply (@upgradeDependencies_never_invalid exactSemver
           {[ js "a" := js "1.0.0" ]} {[ js "a" := js "1.0.1" ]}
           (js "a") (js "1.0.1")).
  vm_compute. reflexivity.
Defined.

(** X10, an instance. *)
Lemma upgradeDependencies_union_witness :
  @upgradeDependencies exactSemver
    ({[ js "a" := js "1.0.0" ]} ∪ {[ js "b" := js "2.0.0" ]})
    {[ js "a" := js "1.0.1"; js "b" := js "2.1.0" ]}
  = @upgradeDependencies exactSemver {[ js "a" := js "1.0.0" ]}
      {[ js "a" := js "1.0.1"; js "b" := js "2.1.0" ]}
    ∪ @upgradeDependencies exactSemver {[ js "b" := js "2.0.0" ]}
        {[ js "a" := js "1.0.1"; js "b" := js "2.1.0" ]}.
Proof.
  apply (@upgradeDependencies_union exactSemver).
  apply map_disjoint_singleton_l. apply lookup_singleton_ne. discriminate.
Defined.

(** ** Escaping *)

(** X11. An escaped string is a pattern of the fragment that matches the
    string itself and nothing else: at the start of a text, it matches
    exactly when the text starts with the string, over its length. *)
Theorem escapeRegexp_matches_literally s :
  exists regExp,
    compile (escapeRegexp s) = Some regExp
    /\ forall text n,
        matchItems regExp text = Some n
        <-> (exists rest, text = s ++ rest) /\ n = length s.
Proof.
  exists (lits s). split.
  - unfold compile. rewrite <- (app_nil_r (escapeRegexp s)), tokens_escapeRegexp.
    cbn [tokens fmap option_fmap option_map mbind option_bind].
    rewrite items_literals by (simpl; tauto). simpl. rewrite !app_nil_r. reflexivity.
  - intros text n. rewrite <- (app_nil_r (lits s)), matchItems_lits.
    split.
    + destruct (stripPrefix s text) as [rest|] eqn:E; [|discriminate].
      apply stripPrefix_Some in E. simpl. intros [= <-].
      split; [eauto|lia].
    + intros [[rest ->] ->]. rewrite stripPrefix_app. simpl.
      f_equal. lia.
Qed.

(** ** Helper functions *)

Lemma copyProperties_union o newObject :
  copyProperties o newObject = delete protoKey o ∪ newObject.
Proof.
  unfold copyProperties.
  apply (map_fold_weak_ind (fun r m => r = delete protoKey m ∪ newObject)).
  - rewrite delete_empty, (left_id_L ∅ (∪)). reflexivity.
  - intros property value m r Hm ->. case_bool_decide as E.
    + subst property. rewrite delete_insert_eq. reflexivity.
    + rewrite delete_insert_ne by congruence. rewrite insert_union_l. reflexivity.
Qed.

Lemma mergeObjects_objectOf o1 o2 :
  mergeObjects o1 o2 = objectOf o2 ∪ objectOf o1.
Proof.
  unfold mergeObjects, objectOf.
  destruct o1 as [m1|], o2 as [m2|]; simpl;
    rewrite ?copyProperties_union, ?delete_empty,
      ?(right_id_L ∅ (∪)), ?(left_id_L ∅ (∪));
    reflexivity.
Qed.

Lemma objectOf_lookup o property :
  objectOf o !! property
  = if bool_decide (property = protoKey) then None else o ≫= (.!! property).
Proof.
  unfold objectOf. case_bool_decide as E.
  - subst property. apply lookup_delete_eq.
  - rewrite lookup_delete_ne by congruence.
    destruct o; [reflexivity | apply lookup_empty].
Qed.

(** X12. For objects that inherit [hasOwnProperty], [mergeObjects] has
    the properties of both objects except [__proto__], those of the second
    taking precedence; an [undefined] object brings none. *)
Theorem mergeObjects_lookup o1 o2 property :
  ordinaryObject o1 -> ordinaryObject o2 ->
  mergeObjects o1 o2 !! property
  = if bool_decide (property = protoKey) then None
    else match o2 ≫= (.!! property) with
         | Some value => Some value
         | None => o1 ≫= (.!! property)
         end.
Proof.
  intros _ _. rewrite mergeObjects_objectOf, lookup_union, !objectOf_lookup.
  case_bool_decide; [reflexivity|].
  destruct (o2 ≫= (.!! property)), (o1 ≫= (.!! property)); reflexivity.
Qed.

(** X12, an instance: a name in both collections, and [__proto__]. *)
Lemma mergeObjects_lookup_witness :
  mergeObjects (Some {[ js "a" := js "1.0.0"; protoKey := js "9.9.9" ]})
               (Some {[ js "a" := js "2.0.0" ]}) !! js "a"
  = Some (js "2.0.0")
  /\ mergeObjects (Some {[ js "a" := js "1.0.0"; protoKey := js "9.9.9" ]})
                  (Some {[ js "a" := js "2.0.0" ]}) !! protoKey
     = None.
Proof.
  split.
  - rewrite (mergeObjects_lookup
               (Some {[ js "a" := js "1.0.0"; protoKey := js "9.9.9" ]})
               (Some {[ js "a" := js "2.0.0" ]}) (js "a"))
      by (vm_compute; reflexivity).
    vm_compute. reflexivity.
  - rewrite (mergeObjects_lookup
               (Some {[ js "a" := js "1.0.0"; protoKey := js "9.9.9" ]})
               (Some {[ js "a" := js "2.0.0" ]}) protoKey)
      by (vm_compute; reflexivity).
    vm_compute. reflexivity.
Defined.

Lemma arrayToObject_fold a acc :
  fold_left (fun o element => copyProperties element o) a acc
  = arrayToObject a ∪ acc.
Proof.
  unfold arrayToObject. revert acc. induction a as [|x a IH]; intros acc; simpl.
  - rewrite (left_id_L ∅ (∪)). reflexivity.
  - rewrite IH, (IH (copyProperties x ∅)), !copyProperties_union.
    rewrite (right_id_L ∅ (∪)), (assoc_L (∪)). reflexivity.
Qed.

Lemma arrayToObject_snoc a o :
  arrayToObject (a ++ [o]) = delete protoKey o ∪ arrayToObject a.
Proof.
  unfold arrayToObject at 1. rewrite fold_left_app. simpl.
  apply copyProperties_union.
Qed.

Lemma arrayToObject_no_proto a : arrayToObject a !! protoKey = None.
Proof.
  induction a as [|o a IH] using rev_ind; [apply lookup_empty|].
  rewrite arrayToObject_snoc, lookup_union, lookup_delete_eq, IH. reflexivity.
Qed.

(** X13. For elements that inherit [hasOwnProperty], the object of two
    arrays put end to end is the merge of their objects, and in the object
    of an array a property other than [__proto__], which is never set, has
    the value the last element that has it gives it. *)
Theorem arrayToObject_app a b o property :
  Forall (fun element => element !! hasOwnPropertyKey = None) (a ++ b) ->
  o !! hasOwnPropertyKey = None ->
  arrayToObject (a ++ b)
  = mergeObjects (Some (arrayToObject a)) (Some (arrayToObject b))
  /\ arrayToObject (a ++ [o]) !! property
     = if bool_decide (property = protoKey) then None
       else match o !! property with
            | Some value => Some value
            | None => arrayToObject a !! property
            end.
Proof.
  intros _ _. split.
  - rewrite mergeObjects_objectOf. unfold objectOf. simpl.
    rewrite !delete_id by apply arrayToObject_no_proto.
    unfold arrayToObject at 1. rewrite fold_left_app.
    apply arrayToObject_fold.
  - rewrite arrayToObject_snoc, lookup_union. case_bool_decide as E.
    + subst property. rewrite lookup_delete_eq, arrayToObject_no_proto.
      reflexivity.
    + rewrite lookup_delete_ne by congruence.
      destruct (o !! property), (arrayToObject a !! property); reflexivity.
Qed.

(** X13, an instance. *)
Lemma arrayToObject_app_witness :
  arrayToObject ([{[ js "a" := js "1" ]}] ++ [{[ js "b" := js "2" ]}])
  = mergeObjects (Some (arrayToObject [{[ js "a" := js "1" ]}]))
                 (Some (arrayToObject [{[ js "b" := js "2" ]}]))
  /\ arrayToObject ([{[ js "a" := js "1" ]}] ++ [{[ js "a" := js "3" ]}]) !! js "a"
     = Some (js "3").
Proof.
  split.
  - apply (arrayToObject_app [{[ js "a" := js "1" ]}] [{[ js "b" := js "2" ]}]
             ∅ (js "a")).
    + repeat constructor; vm_compute; reflexivity.
    + vm_compute. reflexivity.
  - destruct (arrayToObject_app [{[ js "a" := js "1" ]}] []
                {[ js "a" := js "3" ]} (js "a")) as [_ E].
    + repeat constructor; vm_compute; reflexivity.
    + vm_compute. reflexivity.
    + rewrite E. vm_compute. reflexivity.
Defined.

Lemma indexOfFrom_ge searchString s position index :
  indexOfFrom searchString s position = Some index -> (position <= index)%nat.
Proof.
  revert position. induction s as [|c s IH]; intros position; simpl.
  - destruct (stripPrefix searchString []); [|discriminate].
    intros [= <-]. lia.
  - destruct (stripPrefix searchString (c :: s)); [intros [= <-]; lia|].
    intros E. apply IH in E. lia.
Qed.

(** X14. [startsWith] is true exactly when the string is the prefix
    followed by something; the empty prefix starts every string. *)
Theorem startsWith_iff string prefix :
  startsWith string prefix = true <-> exists rest, string = prefix ++ rest.
Proof.
  unfold startsWith, indexOf. rewrite bool_decide_eq_true.
  split.
  - destruct string as [|c s]; simpl.
    + destruct (stripPrefix prefix []) as [rest|] eqn:E; [|discriminate].
      intros _. exists rest. apply stripPrefix_Some. assumption.
    + destruct (stripPrefix prefix (c :: s)) as [rest|] eqn:E.
      * intros _. exists rest. apply stripPrefix_Some. assumption.
      * intros E'. apply indexOfFrom_ge in E'. lia.
  - intros [rest ->].
    assert (E : stripPrefix prefix (prefix ++ rest) = Some rest)
      by apply stripPrefix_app.
    destruct (prefix ++ rest); simpl; rewrite E; reflexivity.
Qed.

(** ** The current dependencies *)

Lemma objectOf_again o : objectOf (Some (objectOf o)) = objectOf o.
Proof.
  unfold objectOf at 1. simpl. apply delete_id.
  rewrite objectOf_lookup, bool_decide_true by reflexivity. reflexivity.
Qed.

Lemma mergedDependencies json prod dev :
  (let allDependencies : gmap jsstring jsstring := ∅ in
   let allDependencies :=
     if prod || negb dev
     then mergeObjects (Some allDependencies) (dependencies json)
     else allDependencies in
   if dev || (negb prod && negb dev)
   then mergeObjects (Some allDependencies) (devDependencies json)
   else allDependencies)
  = selectedDependencies json prod dev.
Proof.
  assert (Hempty : objectOf (Some ∅) = ∅)
    by (unfold objectOf; simpl; apply delete_empty).
  unfold selectedDependencies.
  destruct prod, dev; simpl; rewrite !mergeObjects_objectOf, ?Hempty,
    ?(right_id_L ∅ (∪)), ?objectOf_again; reflexivity.
Qed.

Lemma getCurrentDependencies_json json opts :
  getCurrentDependencies (ReadJson (Some json)) opts
  = f ← readFilter (filterOption opts);
    match f with
    | NoFilter =>
        Some (inr (selectedDependencies json (prod opts) (dev opts)))
    | KeepIf filterPackages =>
        Some (inr (filter (fun entry => filterPackages entry.1 = true)
                          (selectedDependencies json (prod opts) (dev opts))))
    | BadFilter =>
        Some (inl (NewError (js "Invalid packages filter. Must be a RegExp, array, or comma-or-space-delimited list.")))
    end.
Proof.
  unfold getCurrentDependencies.
  rewrite <- (mergedDependencies json (prod opts) (dev opts)). reflexivity.
Qed.

Lemma getCurrentDependenciesWith_json regexpOf json opts :
  getCurrentDependenciesWith regexpOf (ReadJson (Some json)) opts
  = f ← readFilterWith regexpOf (filterOption opts);
    match f with
    | NoFilter =>
        Some (inr (selectedDependencies json (prod opts) (dev opts)))
    | KeepIf filterPackages =>
        Some (inr (filter (fun entry => filterPackages entry.1 = true)
                          (selectedDependencies json (prod opts) (dev opts))))
    | BadFilter =>
        Some (inl (NewError (js "Invalid packages filter. Must be a RegExp, array, or comma-or-space-delimited list.")))
    end.
Proof.
  unfold getCurrentDependenciesWith.
  rewrite <- (mergedDependencies json (prod opts) (dev opts)). reflexivity.
Qed.

(** With the engine of the fragment, the callback is the one above. *)
Lemma getCurrentDependencies_fragment read opts :
  getCurrentDependenciesWith fragmentRegExp read opts
  = getCurrentDependencies read opts.
Proof.
  destruct read as [e|[json|]]; try reflexivity.
  rewrite getCurrentDependenciesWith_json, getCurrentDependencies_json.
  destruct (filterOption opts) as [|[|c s]| |]; try reflexivity.
  unfold readFilterWith, readFilter, fragmentRegExp.
  destruct (_ && _); [|reflexivity].
  destruct (compile _); reflexivity.
Qed.


(** X15. For a manifest whose collections inherit [hasOwnProperty] and
    without a filter, [getCurrentDependencies] hands over the production
    dependencies alone when only [prod] is set, the development
    dependencies alone when only [dev] is set, and otherwise (neither
    flag, or both) the two together, the declaration of [devDependencies]
    winning for a name in both; a missing collection counts as empty, and
    an entry named [__proto__] is never handed over. *)
Theorem getCurrentDependencies_selection json prod dev name :
  ordinaryObject (dependencies json) ->
  ordinaryObject (devDependencies json) ->
  exists allDependencies,
    getCurrentDependencies (ReadJson (Some json))
      {| prod := prod; dev := dev; filterOption := FilterAbsent |}
    = Some (inr allDependencies)
    /\ allDependencies !! name
       = if bool_decide (name = protoKey) then None
         else if prod && negb dev then dependencies json ≫= (.!! name)
         else if dev && negb prod then devDependencies json ≫= (.!! name)
         else match devDependencies json ≫= (.!! name) with
              | Some declaration => Some declaration
              | None => dependencies json ≫= (.!! name)
              end.
Proof.
  intros _ _.
  eexists. split; [rewrite getCurrentDependencies_json; reflexivity|].
  simpl. unfold selectedDependencies.
  destruct prod, dev; simpl; rewrite ?lookup_union, !objectOf_lookup;
    case_bool_decide; try reflexivity;
    destruct (devDependencies json ≫= (.!! name)),
      (dependencies json ≫= (.!! name)); reflexivity.
Qed.

(** X15, an instance: both collections, no flag. *)
Lemma getCurrentDependencies_selection_witness :
  exists allDependencies,
    getCurrentDependencies
      (ReadJson (Some {| dependencies := Some {[ js "a" := js "1.0.0" ]};
                         devDependencies := Some {[ js "a" := js "2.0.0" ]} |}))
      {| prod := false; dev := false; filterOption := FilterAbsent |}
    = Some (inr allDependencies)
    /\ allDependencies !! js "a" = Some (js "2.0.0").
Proof.
  destruct (getCurrentDependencies_selection
              {| dependencies := Some {[ js "a" := js "1.0.0" ]};
                 devDependencies := Some {[ js "a" := js "2.0.0" ]} |}
              false false (js "a")) as (allDependencies & E & Hlookup).
  - vm_compute. reflexivity.
  - vm_compute. reflexivity.
  - exists allDependencies. split; [exact E|].
    rewrite Hlookup. vm_compute. reflexivity.
Defined.


(** X17. Whatever the filter and whatever the engine of regular
    expressions makes of a pattern, a filter only leaves dependencies out:
    what is handed over with a filter is part of what is handed over
    without it, with the same declarations. *)
Theorem getCurrentDependencies_filter_subset regexpOf read opts filtered :
  getCurrentDependenciesWith regexpOf read opts = Some (inr filtered) ->
  exists allDependencies,
    getCurrentDependenciesWith regexpOf read
      {| prod := prod opts; dev := dev opts; filterOption := FilterAbsent |}
    = Some (inr allDependencies)
    /\ filtered ⊆ allDependencies.
Proof.
  destruct read as [e|[json|]]; [discriminate| |discriminate].
  rewrite !getCurrentDependenciesWith_json. simpl.
  destruct (readFilterWith regexpOf (filterOption opts)) as [[|f|]|]; simpl;
    try discriminate.
  - intros [= <-]. eauto.
  - intros [= <-]. eexists. split; [reflexivity|]. apply map_filter_subseteq.
Qed.

(** X17, an instance: an array filter. *)
Lemma getCurrentDependencies_filter_subset_witness :
  exists allDependencies,
    getCurrentDependenciesWith fragmentRegExp
      (ReadJson (Some {| dependencies := Some {[ js "a" := js "1.0.0";
                                                 js "b" := js "2.0.0" ]};
                         devDependencies := None |}))
      {| prod := false; dev := false; filterOption := FilterAbsent |}
    = Some (inr allDependencies)
    /\ ({[ js "a" := js "1.0.0" ]} : gmap jsstring jsstring) ⊆ allDependencies.
Proof.
  apply (getCurrentDependencies_filter_subset fragmentRegExp
           (ReadJson (Some {| dependencies := Some {[ js "a" := js "1.0.0";
                                                      js "b" := js "2.0.0" ]};
                              devDependencies := None |}))
           {| prod := false; dev := false;
              filterOption := FilterArray [js "a"] |}).
  vm_compute. reflexivity.
Defined.

(** *** The list of names *)

Lemma splitRuns_cons_inv b s : exists h t, splitRuns b s = h :: t.
Proof.
  revert b. induction s as [|c s IH]; intros b; simpl; [eauto|].
  destruct (isFilterSeparator c).
  - destruct b; [apply IH | eauto].
  - destruct (IH false) as (h & t & ->). eauto.
Qed.









(** *** The pattern *)






(** ** The installed packages *)



